(** * GoWebSocket: handshake responder and single-frame text codec

    A shallow embedding of [server/server.go] (computeAcceptKey, wsHandler,
    sendTextMessage) and of the client's frame decoder (readTextMessage),
    together with the parts of the Go standard library they call:
    crypto/sha1, encoding/base64, bufio.Reader, bufio.Writer, the
    net/http header map and response writer. *)

From Stdlib Require Import NArith List Ascii String Lia Bool.
From Stdlib.Strings Require Import Byte.
From stdpp Require Import gmap strings list fin_maps.
Import ListNotations.

Local Open Scope string_scope.

(** ** Go values

    A Go [string] is an immutable byte sequence: it is a Rocq [string]
    (a list of 8-bit characters).  A [[]byte] is a [list byte]. *)

Abbreviation bytes := (list Byte.byte).

(** [[]byte(s)] and [string(b)]. *)
Definition bytes_of_string (s : string) : bytes := list_byte_of_string s.
Definition string_of_bytes (b : bytes) : string := string_of_list_byte b.

(** [len(s)] of a Go string: its number of bytes. *)
Definition len (s : string) : nat := String.length s.

(** [byte(n)] for an [int]: truncation to the low 8 bits. *)
Definition byte_of_int (n : nat) : Byte.byte :=
  match Byte.of_N (N.of_nat n mod 256) with
  | Some b => b
  | None => x00
  end.

(** [make([]byte, n)]: [n] zero bytes. *)
Definition make (n : nat) : bytes := repeat x00 n.

(** Go's [error] values, as far as this program produces them:
    [io.EOF], [io.ErrShortWrite], the values built by [fmt.Errorf], and
    errors raised by a transport. *)
Inductive error : Type :=
| io_EOF
| io_ErrShortWrite
| fmt_Errorf (msg : string)
| transport_error (msg : string).

Definition error_Error (e : error) : string :=
  match e with
  | io_EOF => "EOF"
  | io_ErrShortWrite => "short write"
  | fmt_Errorf m => m
  | transport_error m => m
  end.

(** ** crypto/sha1 *)

Module sha1.
Local Open Scope N_scope.

Definition mask32 : N := 0xFFFFFFFF.
Definition add32 (a b : N) : N := N.land (a + b) mask32.
Definition rotl (n x : N) : N :=
  N.land (N.lor (N.shiftl x n) (N.shiftr x (32 - n))) mask32.
Definition not32 (x : N) : N := N.lxor x mask32.

(** Big-endian encoding of [x] on [k] bytes. *)
Fixpoint be_bytes (k : nat) (x : N) : list N :=
  match k with
  | O => []
  | S k' => N.land (N.shiftr x (8 * N.of_nat k')) 0xFF :: be_bytes k' x
  end.

(** Message padding: a 0x80 byte, zeros up to 56 mod 64, and the
    message length in bits on 8 bytes. *)
Definition pad (msg : list N) : list N :=
  let l := List.length msg in
  let zeros := ((64 + 55 - (l mod 64)%nat) mod 64)%nat in
  msg ++ [0x80] ++ repeat 0 zeros ++ be_bytes 8 (8 * N.of_nat l).

(** The sixteen big-endian words of a 64-byte block. *)
Fixpoint words (n : nat) (bs : list N) : list N :=
  match n, bs with
  | S n', a :: b :: c :: d :: rest =>
      (N.shiftl a 24 + N.shiftl b 16 + N.shiftl c 8 + d) :: words n' rest
  | _, _ => []
  end.

(** Message schedule, newest word first: [sched] holds w[t-1], w[t-2], ... *)
Fixpoint schedule (n : nat) (sched : list N) : list N :=
  match n with
  | O => sched
  | S n' =>
      let w := rotl 1 (N.lxor (N.lxor (nth 2 sched 0) (nth 7 sched 0))
                              (N.lxor (nth 13 sched 0) (nth 15 sched 0))) in
      schedule n' (w :: sched)
  end.

Definition f (t : nat) (b c d : N) : N :=
  if (t <? 20)%nat then N.lor (N.land b c) (N.land (not32 b) d)
  else if (t <? 40)%nat then N.lxor (N.lxor b c) d
  else if (t <? 60)%nat then
    N.lor (N.lor (N.land b c) (N.land b d)) (N.land c d)
  else N.lxor (N.lxor b c) d.

Definition K (t : nat) : N :=
  if (t <? 20)%nat then 0x5A827999
  else if (t <? 40)%nat then 0x6ED9EBA1
  else if (t <? 60)%nat then 0x8F1BBCDC
  else 0xCA62C1D6.

Record digest : Type :=
  Digest { h0 : N; h1 : N; h2 : N; h3 : N; h4 : N }.

Definition init : digest :=
  Digest 0x67452301 0xEFCDAB89 0x98BADCFE 0x10325476 0xC3D2E1F0.

Fixpoint rounds (t : nat) (ws : list N) (s : digest) : digest :=
  match ws with
  | [] => s
  | w :: ws' =>
      let '(Digest a b c d e) := s in
      let tmp := add32 (add32 (add32 (add32 (rotl 5 a) (f t b c d)) e) w) (K t) in
      rounds (S t) ws' (Digest tmp a (rotl 30 b) c d)
  end.

Definition block (s : digest) (blk : list N) : digest :=
  let ws := rev (schedule 64 (rev (words 16 blk))) in
  let '(Digest a b c d e) := rounds 0 ws s in
  Digest (add32 (h0 s) a) (add32 (h1 s) b) (add32 (h2 s) c)
         (add32 (h3 s) d) (add32 (h4 s) e).

Fixpoint blocks (n : nat) (s : digest) (bs : list N) : digest :=
  match n with
  | O => s
  | S n' => blocks n' (block s (firstn 64 bs)) (skipn 64 bs)
  end.

Definition to_byte (x : N) : Byte.byte :=
  match Byte.of_N x with Some b => b | None => x00 end.

(** [sha1.Sum]: the 20-byte digest of a message. *)
Definition Sum (msg : bytes) : bytes :=
  let p := pad (map Byte.to_N msg) in
  let '(Digest a b c d e) := blocks (List.length p / 64) init p in
  map to_byte (be_bytes 4 a ++ be_bytes 4 b ++ be_bytes 4 c
               ++ be_bytes 4 d ++ be_bytes 4 e).

(** The [hash.Hash] object returned by [sha1.New()]: [Write] appends to
    the message hashed so far, [Sum(b)] appends the digest of that
    message to [b] and leaves the state unchanged. *)
Record Hash : Type := { written : bytes }.
Definition New : Hash := {| written := [] |}.
Definition Write (h : Hash) (p : bytes) : Hash :=
  {| written := written h ++ p |}.
Definition HashSum (h : Hash) (b : bytes) : bytes := b ++ Sum (written h).
End sha1.

(** ** encoding/base64, [StdEncoding] (padded, alphabet A-Z a-z 0-9 + /) *)

Module base64.
Local Open Scope N_scope.

Definition encodeStd : string :=
  "ABCDEFGHIJKLMNOPQRSTUVWXYZabcdefghijklmnopqrstuvwxyz0123456789+/".

Definition enc (i : N) : ascii :=
  match String.get (N.to_nat i) encodeStd with
  | Some c => c
  | None => "="%char
  end.

Fixpoint encode (src : list N) : string :=
  match src with
  | [] => EmptyString
  | [a] =>
      String (enc (N.shiftr a 2))
        (String (enc (N.land (N.shiftl a 4) 0x3F))
           (String "="%char (String "="%char EmptyString)))
  | [a; b] =>
      String (enc (N.shiftr a 2))
        (String (enc (N.land (N.lor (N.shiftl a 4) (N.shiftr b 4)) 0x3F))
           (String (enc (N.land (N.shiftl b 2) 0x3F))
              (String "="%char EmptyString)))
  | a :: b :: c :: rest =>
      String (enc (N.shiftr a 2))
        (String (enc (N.land (N.lor (N.shiftl a 4) (N.shiftr b 4)) 0x3F))
           (String (enc (N.land (N.lor (N.shiftl b 2) (N.shiftr c 6)) 0x3F))
              (String (enc (N.land c 0x3F)) (encode rest))))
  end.

Definition EncodeToString (src : bytes) : string :=
  encode (map Byte.to_N src).
End base64.

(** ** server.go: computeAcceptKey *)

Definition magicString : string := "258EAFA5-E914-47DA-95CA-C5AB0DC85B11".

Definition computeAcceptKey (secWebSocketKey : string) : string :=
  let h := sha1.New in
  let h := sha1.Write h (bytes_of_string (secWebSocketKey ++ magicString)) in
  base64.EncodeToString (sha1.HashSum h []).

(** ** io: byte streams

    An [io.Reader] is a stream that hands over its bytes chunk by chunk:
    one [Read] call returns (a prefix of) the next chunk, and [io.EOF]
    with no bytes once the stream is exhausted.  An [io.Writer] is a sink
    that either accepts every write in full or is broken and rejects every
    write with its error. *)

Module io.
Definition Source : Type := list bytes.

Definition Read (cap : nat) (s : Source) : (bytes * option error) * Source :=
  match s with
  | [] => (([], Some io_EOF), [])
  | c :: s' =>
      if (length c <=? cap)%nat then ((c, None), s')
      else ((take cap c, None), drop cap c :: s')
  end.

(** [bytes.NewReader(b)]: the whole slice is available at once. *)
Definition bytes_NewReader (b : bytes) : Source :=
  match b with
  | [] => []
  | _ :: _ => [b]
  end.

Record Sink : Type := { out : bytes; broken : option error }.

(** [new(bytes.Buffer)]. *)
Definition bytes_Buffer : Sink := {| out := []; broken := None |}.

Definition Write (p : bytes) (s : Sink) : (nat * option error) * Sink :=
  match broken s with
  | Some e => ((0, Some e), s)
  | None => ((length p, None), {| out := out s ++ p; broken := None |})
  end.
End io.

(** [copy(dst, src)]: overwrites the first [min(len(dst), len(src))] bytes
    of [dst]; returns the new contents of [dst] and that count. *)
Definition copy (dst src : bytes) : bytes * nat :=
  let n := Nat.min (length dst) (length src) in
  ((take n src ++ drop n dst)%list, n).

(** ** bufio *)

Module bufio.
Definition defaultBufSize : nat := 4096.

(** [rbuf] is the unread part [b.buf[b.r:b.w]] of the buffer, [rerr] the
    pending error [b.err], [rsize] is [len(b.buf)]. *)
Record Reader : Type :=
  { rbuf : bytes; rerr : option error; rsize : nat; rd : io.Source }.

Definition NewReader (rd : io.Source) : Reader :=
  {| rbuf := []; rerr := None; rsize := defaultBufSize; rd := rd |}.

Definition Buffered (b : Reader) : nat := length (rbuf b).

Definition readErr (b : Reader) : option error * Reader :=
  (rerr b, {| rbuf := rbuf b; rerr := None; rsize := rsize b; rd := rd b |}).

(** [b.Read(p)]: at most one read of the underlying stream, and only
    when the buffer is empty; returns the new contents of [p], the
    number of bytes placed in it and the error. *)
Definition Read (p : bytes) (b : Reader)
  : (bytes * nat * option error) * Reader :=
  let copy_out (b : Reader) :=
    let '(p', n) := copy p (rbuf b) in
    ((p', n, None),
     {| rbuf := drop n (rbuf b); rerr := rerr b; rsize := rsize b; rd := rd b |}) in
  if (length p =? 0)%nat then
    if (0 <? Buffered b)%nat then ((p, 0%nat, None), b)
    else let '(e, b) := readErr b in ((p, 0%nat, e), b)
  else if (Buffered b =? 0)%nat then
    match rerr b with
    | Some _ => let '(e, b) := readErr b in ((p, 0%nat, e), b)
    | None =>
        if (rsize b <=? length p)%nat then
          let '((data, e), src) := io.Read (length p) (rd b) in
          let '(p', n) := copy p data in
          let '(e, b) :=
            readErr {| rbuf := []; rerr := e; rsize := rsize b; rd := src |} in
          ((p', n, e), b)
        else
          let '((data, e), src) := io.Read (rsize b) (rd b) in
          let b := {| rbuf := data; rerr := e; rsize := rsize b; rd := src |} in
          if (length data =? 0)%nat then
            let '(e, b) := readErr b in ((p, 0%nat, e), b)
          else copy_out b
    end
  else copy_out b.

(** [wbuf] is the buffered data [b.buf[0:b.n]], [werr] the sticky error
    [b.err], [wsize] is [len(b.buf)]. *)
Record Writer : Type :=
  { wbuf : bytes; werr : option error; wsize : nat; wr : io.Sink }.

Definition NewWriter (w : io.Sink) : Writer :=
  {| wbuf := []; werr := None; wsize := defaultBufSize; wr := w |}.

Definition Available (b : Writer) : nat := wsize b - length (wbuf b).

Definition Flush (b : Writer) : option error * Writer :=
  match werr b with
  | Some e => (Some e, b)
  | None =>
      if (length (wbuf b) =? 0)%nat then (None, b)
      else
        let '((n, err), s) := io.Write (wbuf b) (wr b) in
        let err :=
          match err with
          | None => if (n <? length (wbuf b))%nat then Some io_ErrShortWrite else None
          | Some e => Some e
          end in
        match err with
        | Some e =>
            (Some e, {| wbuf := drop n (wbuf b); werr := Some e;
                        wsize := wsize b; wr := s |})
        | None =>
            (None, {| wbuf := []; werr := None; wsize := wsize b; wr := s |})
        end
  end.

(** The loop of [b.Write(p)]: as long as [p] does not fit in the free
    space and no error is pending, either write [p] through (empty
    buffer) or fill the buffer and flush it. *)
Fixpoint Write_loop (fuel : nat) (p : bytes) (nn : nat) (b : Writer)
  : (bytes * nat) * Writer :=
  match fuel with
  | O => ((p, nn), b)
  | S fuel' =>
      if (Available b <? length p)%nat && bool_decide (werr b = None) then
        if (length (wbuf b) =? 0)%nat then
          let '((n, e), s) := io.Write p (wr b) in
          Write_loop fuel' (drop n p) (nn + n)%nat
            {| wbuf := wbuf b; werr := e; wsize := wsize b; wr := s |}
        else
          let n := Nat.min (Available b) (length p) in
          let '(_, b') :=
            Flush {| wbuf := (wbuf b ++ take n p)%list; werr := werr b;
                     wsize := wsize b; wr := wr b |} in
          Write_loop fuel' (drop n p) (nn + n)%nat b'
      else ((p, nn), b)
  end.

Definition Write (p : bytes) (b : Writer) : (nat * option error) * Writer :=
  let '((p', nn), b) := Write_loop (2 * length p + 2) p 0%nat b in
  match werr b with
  | Some e => ((nn, Some e), b)
  | None =>
      let n := Nat.min (Available b) (length p') in
      (((nn + n)%nat, None),
       {| wbuf := (wbuf b ++ take n p')%list; werr := None;
          wsize := wsize b; wr := wr b |})
  end.
End bufio.

(** ** The frame codec *)

(** server.go, [sendTextMessage]. *)
Definition sendTextMessage (w : bufio.Writer) (message : string)
  : option error * bufio.Writer :=
  let payloadLen := len message in
  if (125 <? payloadLen)%nat then (Some (fmt_Errorf "Message too long"), w)
  else
    let frame := [x81] in
    let frame := (frame ++ [byte_of_int payloadLen])%list in
    let frame := (frame ++ bytes_of_string message)%list in
    let '((_, err), w) := bufio.Write frame w in
    match err with
    | Some e => (Some e, w)
    | None => bufio.Flush w
    end.

(** The client's [readTextMessage]. *)
Definition readTextMessage (r : bufio.Reader)
  : (string * option error) * bufio.Reader :=
  let header := make 2 in
  let '((header, _, err), r) := bufio.Read header r in
  match err with
  | Some e => ((EmptyString, Some e), r)
  | None =>
      let fin := negb (N.land (Byte.to_N (nth 0 header x00)) 0x80 =? 0)%N in
      let opcode := N.land (Byte.to_N (nth 0 header x00)) 0x0F in
      let masked := negb (N.land (Byte.to_N (nth 1 header x00)) 0x80 =? 0)%N in
      let payloadLen := N.to_nat (N.land (Byte.to_N (nth 1 header x00)) 0x7F) in
      if negb fin then
        ((EmptyString, Some (fmt_Errorf "Continuation frames are not supported")), r)
      else if negb (opcode =? 0x1)%N then
        ((EmptyString, Some (fmt_Errorf "Only text frames are supported")), r)
      else if masked then
        ((EmptyString, Some (fmt_Errorf "Server frames should not be masked")), r)
      else
        let payload := make payloadLen in
        let '((payload, _, err), r) := bufio.Read payload r in
        match err with
        | Some e => ((EmptyString, Some e), r)
        | None => ((string_of_bytes payload, None), r)
        end
  end.

(** The error kinds of the specification, as the values the code returns. *)
Definition UnsupportedFragmentation : error :=
  fmt_Errorf "Continuation frames are not supported".
Definition UnsupportedFrameType : error :=
  fmt_Errorf "Only text frames are supported".
Definition MaskingPolicyViolation : error :=
  fmt_Errorf "Server frames should not be masked".
Definition PayloadTooLarge : error := fmt_Errorf "Message too long".

(** ** net/http: header maps, requests and response writers *)

Module http.
Definition StatusOK : nat := 200.
Definition StatusSwitchingProtocols : nat := 101.
Definition StatusBadRequest : nat := 400.
Definition StatusForbidden : nat := 403.
Definition StatusInternalServerError : nat := 500.

(** [textproto.CanonicalMIMEHeaderKey]: a key made of token bytes only
    gets an upper-case letter first and after each dash and lower-case
    letters elsewhere; any other key is left as it is. *)
Definition isLower (c : ascii) : bool :=
  (97 <=? nat_of_ascii c)%nat && (nat_of_ascii c <=? 122)%nat.
Definition isUpper (c : ascii) : bool :=
  (65 <=? nat_of_ascii c)%nat && (nat_of_ascii c <=? 90)%nat.
Definition isDigit (c : ascii) : bool :=
  (48 <=? nat_of_ascii c)%nat && (nat_of_ascii c <=? 57)%nat.
Definition validHeaderFieldByte (c : ascii) : bool :=
  isLower c || isUpper c || isDigit c
  || existsb (Ascii.eqb c) (list_ascii_of_string "!#$%&'*+-.^_`|~").

Fixpoint allValid (s : string) : bool :=
  match s with
  | EmptyString => true
  | String c s' => validHeaderFieldByte c && allValid s'
  end.

Fixpoint canonicalize (upper : bool) (s : string) : string :=
  match s with
  | EmptyString => EmptyString
  | String c s' =>
      let c' :=
        if upper && isLower c then ascii_of_nat (nat_of_ascii c - 32)
        else if negb upper && isUpper c then ascii_of_nat (nat_of_ascii c + 32)
        else c in
      String c' (canonicalize (Ascii.eqb c' "-") s')
  end.

Definition CanonicalMIMEHeaderKey (s : string) : string :=
  if allValid s then canonicalize true s else s.

(** [http.Header] is [map[string][]string]. *)
Abbreviation Header := (gmap string (list string)).

Definition HeaderGet (h : Header) (key : string) : string :=
  match h !! CanonicalMIMEHeaderKey key with
  | Some (v :: _) => v
  | _ => EmptyString
  end.
Definition HeaderSet (h : Header) (key value : string) : Header :=
  <[CanonicalMIMEHeaderKey key := [value]]> h.
Definition HeaderDel (h : Header) (key : string) : Header :=
  delete (CanonicalMIMEHeaderKey key) h.

(** Of the request the handler reads the header map only. *)
Record Request : Type := { ReqHeader : Header }.

(** What the [http.Hijacker] side of a response writer does: the writer
    does not implement the interface, or [Hijack] fails, or it hands
    over the connection. *)
Inductive Hijacking : Type :=
| NotHijacker
| HijackFails (err : error)
| Hijackable (conn : io.Sink).

(** A response writer with the behaviour of [httptest.ResponseRecorder]
    (and, for the status line, of the server's own writer): [header]
    is the live map returned by [w.Header()]; the first [WriteHeader]
    commits the status code with a snapshot of the headers, later calls
    are ignored; [Write] commits status 200 if nothing is committed yet
    and appends to the body. *)
Record ResponseWriter : Type :=
  { header : Header;
    committed : option (nat * Header);
    body : bytes;
    hijacking : Hijacking }.

Definition NewResponseWriter (hj : Hijacking) : ResponseWriter :=
  {| header := ∅; committed := None; body := []; hijacking := hj |}.

Definition setHeader (f : Header → Header) (w : ResponseWriter) : ResponseWriter :=
  {| header := f (header w); committed := committed w;
     body := body w; hijacking := hijacking w |}.

Definition WriteHeader (code : nat) (w : ResponseWriter) : ResponseWriter :=
  match committed w with
  | Some _ => w
  | None =>
      {| header := header w; committed := Some (code, header w);
         body := body w; hijacking := hijacking w |}
  end.

Definition Write (p : bytes) (w : ResponseWriter) : ResponseWriter :=
  let w := WriteHeader StatusOK w in
  {| header := header w; committed := committed w;
     body := (body w ++ p)%list; hijacking := hijacking w |}.

(** [http.Error(w, msg, code)]: the message is written as one line. *)
Definition Error (msg : string) (code : nat) (w : ResponseWriter)
  : ResponseWriter :=
  let w := setHeader (fun h => HeaderDel h "Content-Length") w in
  let w := setHeader (fun h => HeaderSet h "Content-Type" "text/plain; charset=utf-8") w in
  let w := setHeader (fun h => HeaderSet h "X-Content-Type-Options" "nosniff") w in
  let w := WriteHeader code w in
  Write (bytes_of_string (msg ++ String "010" EmptyString)) w.

(** The status code of the response, [rr.Code] of a recorder. *)
Definition Code (w : ResponseWriter) : nat :=
  match committed w with
  | Some (c, _) => c
  | None => StatusOK
  end.
End http.

(** ** server.go: wsHandler

    The handler runs in a state monad over its world: the response
    writer, the connection once it has been taken over (its sink and
    whether it is closed), and the calls made so far, oldest first. *)

Inductive Call : Type :=
| Call_Header_Get (key : string)
| Call_log (args : list string)
| Call_http_Error (msg : string) (code : nat)
| Call_computeAcceptKey (key : string)
| Call_Header_Set (key value : string)
| Call_WriteHeader (code : nat)
| Call_Hijacker
| Call_Hijack
| Call_sendTextMessage (message : string)
| Call_conn_Close.

Record Conn : Type := { sink : io.Sink; closed : bool }.

Record World : Type :=
  { w : http.ResponseWriter; conn : option Conn; calls : list Call }.

Definition M (A : Type) : Type := World → A * World.

Definition ret {A} (a : A) : M A := fun s => (a, s).
Definition bind {A B} (m : M A) (k : A → M B) : M B :=
  fun s => let '(a, s') := m s in k a s'.

Notation "'let*' x ':=' m 'in' k" := (bind m (fun x => k))
  (at level 10, x name, m at level 100, k at level 200).

Definition call (c : Call) : M unit :=
  fun s => (tt, {| w := w s; conn := conn s; calls := (calls s ++ [c])%list |}).
Definition on_w (f : http.ResponseWriter → http.ResponseWriter) : M unit :=
  fun s => (tt, {| w := f (w s); conn := conn s; calls := calls s |}).
Definition set_conn (c : option Conn) : M unit :=
  fun s => (tt, {| w := w s; conn := c; calls := calls s |}).

Definition Header_Get (r : http.Request) (key : string) : M string :=
  let* _ := call (Call_Header_Get key) in
  ret (http.HeaderGet (http.ReqHeader r) key).
Definition Header_Set (key value : string) : M unit :=
  let* _ := call (Call_Header_Set key value) in
  on_w (http.setHeader (fun h => http.HeaderSet h key value)).
Definition WriteHeader (code : nat) : M unit :=
  let* _ := call (Call_WriteHeader code) in on_w (http.WriteHeader code).
Definition http_Error (msg : string) (code : nat) : M unit :=
  let* _ := call (Call_http_Error msg code) in on_w (http.Error msg code).
Definition log_Print (args : list string) : M unit := call (Call_log args).
Definition do_computeAcceptKey (key : string) : M string :=
  let* _ := call (Call_computeAcceptKey key) in ret (computeAcceptKey key).

(** [w.(http.Hijacker)]: does the writer implement the interface? *)
Definition Hijacker : M bool :=
  let* _ := call Call_Hijacker in
  fun s => (match http.hijacking (w s) with
            | http.NotHijacker => false
            | _ => true
            end, s).

(** [hijacker.Hijack()]: the buffered writer of the connection, or the
    error. *)
Definition Hijack : M (bufio.Writer + error) :=
  let* _ := call Call_Hijack in
  fun s =>
    match http.hijacking (w s) with
    | http.Hijackable c =>
        (inl (bufio.NewWriter c),
         {| w := w s; conn := Some {| sink := c; closed := false |};
            calls := calls s |})
    | http.HijackFails e => (inr e, s)
    | http.NotHijacker => (inr (transport_error "not a Hijacker"), s)
    end.

(** [sendTextMessage(rw.Writer, message)] on the connection. *)
Definition do_sendTextMessage (rw : bufio.Writer) (message : string)
  : M (option error) :=
  let* _ := call (Call_sendTextMessage message) in
  let '(err, rw') := sendTextMessage rw message in
  let* _ := set_conn (Some {| sink := bufio.wr rw'; closed := false |}) in
  ret err.

(** [conn.Close()], run when the handler returns. *)
Definition conn_Close : M unit :=
  let* _ := call Call_conn_Close in
  fun s =>
    (tt, {| w := w s;
            conn := match conn s with
                    | Some c => Some {| sink := sink c; closed := true |}
                    | None => None
                    end;
            calls := calls s |}).

Definition wsHandler (r : http.Request) : M unit :=
  let allowedOrigin := "http://localhost:8080" in
  let* origin := Header_Get r "Origin" in
  if bool_decide (origin ≠ allowedOrigin) then
    let* _ := log_Print ["Origin not allowed: "; origin] in
    http_Error "Origin not allowed" http.StatusForbidden
  else
    let* upgrade := Header_Get r "Upgrade" in
    if bool_decide (upgrade ≠ "websocket") then
      http_Error "Not a valid WebSocket handshake" http.StatusBadRequest
    else
      let* secWebSocketKey := Header_Get r "Sec-WebSocket-Key" in
      if bool_decide (secWebSocketKey = EmptyString) then
        http_Error "Missing Sec-WebSocket-Key" http.StatusBadRequest
      else
        let* secWebSocketAccept := do_computeAcceptKey secWebSocketKey in
        let* _ := Header_Set "Upgrade" "websocket" in
        let* _ := Header_Set "Connection" "Upgrade" in
        let* _ := Header_Set "Sec-WebSocket-Accept" secWebSocketAccept in
        let* _ := WriteHeader http.StatusSwitchingProtocols in
        let* ok := Hijacker in
        if negb ok then
          http_Error "Hijacking not supported" http.StatusInternalServerError
        else
          let* res := Hijack in
          match res with
          | inr err =>
              http_Error ("Could not hijack connection: " ++ error_Error err)
                http.StatusInternalServerError
          | inl rw =>
              (* defer conn.Close() *)
              let* _ :=
                (let message := "Hello World" in
                 let* err := do_sendTextMessage rw message in
                 match err with
                 | Some e => log_Print ["Error sending message:"; error_Error e]
                 | None => log_Print ["Sent:"; message]
                 end) in
              conn_Close
          end.

(** One request served on a fresh response writer. *)
Definition serve (hj : http.Hijacking) (r : http.Request) : World :=
  snd (wsHandler r {| w := http.NewResponseWriter hj; conn := None; calls := [] |}).

(** [httptest.NewRequest] followed by [req.Header.Set] for each pair. *)
Definition NewRequest (hs : list (string * string)) : http.Request :=
  {| http.ReqHeader := fold_left (fun h kv => http.HeaderSet h kv.1 kv.2) hs ∅ |}.

(** ** Notions used to state the properties *)

(** The unmasked text frame for a payload: FIN and the text opcode, the
    length byte, the payload bytes. *)
Definition text_frame (message : string) : bytes :=
  ([x81; byte_of_int (len message)] ++ bytes_of_string message)%list.

(** A writer without a pending error on a sink that accepts writes. *)
Definition healthy (b : bufio.Writer) : Prop :=
  bufio.werr b = None ∧ io.broken (bufio.wr b) = None.

(** Everything handed to the writer so far, flushed or still buffered. *)
Definition accepted (b : bufio.Writer) : bytes :=
  (io.out (bufio.wr b) ++ bufio.wbuf b)%list.

(** The bytes a reader can still deliver: buffered ones and those left in
    the stream. *)
Definition remaining (r : bufio.Reader) : nat :=
  (length (bufio.rbuf r) + length (concat (bufio.rd r)))%nat.

(** All the bytes a reader will deliver, in order. *)
Definition content (r : bufio.Reader) : bytes :=
  (bufio.rbuf r ++ concat (bufio.rd r))%list.

(** A read of [k] bytes finds them at hand: in the buffer when the buffer
    is not empty; otherwise, with no error pending, at the front of the
    next chunk of the stream (nothing more is needed when [k] is 0). *)
Definition at_hand (k : nat) (r : bufio.Reader) : Prop :=
  match bufio.rbuf r with
  | _ :: _ => (k ≤ length (bufio.rbuf r))%nat
  | [] =>
      bufio.rerr r = None
      ∧ (k = 0%nat
         ∨ match bufio.rd r with
           | c :: _ => (k ≤ length c)%nat
           | [] => False
           end)
  end.

(** An in-memory stream, as in the tests:
    [bufio.NewReader(bytes.NewReader(input))]. *)
Definition stream_of (input : bytes) : bufio.Reader :=
  bufio.NewReader (io.bytes_NewReader input).

(** [strings.Repeat(s, count)]. *)
Fixpoint Repeat (s : string) (count : nat) : string :=
  match count with
  | O => EmptyString
  | S n => s ++ Repeat s n
  end.

(** The response headers of a successful upgrade and the response writer
    once they are committed with status 101. *)
Definition upgrade_headers (accept : string) : http.Header :=
  http.HeaderSet
    (http.HeaderSet (http.HeaderSet ∅ "Upgrade" "websocket")
       "Connection" "Upgrade")
    "Sec-WebSocket-Accept" accept.

Definition switching_protocols (hj : http.Hijacking) (accept : string)
  : http.ResponseWriter :=
  {| http.header := upgrade_headers accept;
     http.committed :=
       Some (http.StatusSwitchingProtocols, upgrade_headers accept);
     http.body := [];
     http.hijacking := hj |}.

(** The calls of the handler up to and including the upgrade emission. *)
Definition upgrade_calls (key : string) : list Call :=
  [Call_Header_Get "Origin"; Call_Header_Get "Upgrade";
   Call_Header_Get "Sec-WebSocket-Key";
   Call_computeAcceptKey key;
   Call_Header_Set "Upgrade" "websocket";
   Call_Header_Set "Connection" "Upgrade";
   Call_Header_Set "Sec-WebSocket-Accept" (computeAcceptKey key);
   Call_WriteHeader http.StatusSwitchingProtocols].

(** ** The client: line reading and the session after the connection

    [bufio.Reader.ReadString], [strings.Contains] and the client's [main]
    from the point where the connection is open. *)

Module strings.
(** [strings.Contains(s, substr)]. *)
Fixpoint Contains (s substr : string) : bool :=
  String.prefix substr s
  || match s with
     | EmptyString => false
     | String _ s' => Contains s' substr
     end.
End strings.

(** [bytes.IndexByte(b, c)]: the index of the first [c] in [b]. *)
Fixpoint IndexByte (b : bytes) (c : Byte.byte) : option nat :=
  match b with
  | [] => None
  | x :: b' =>
      if Byte.eqb x c then Some 0%nat
      else match IndexByte b' c with
           | Some i => Some (S i)
           | None => None
           end
  end.

Module bufio_lines.
Import bufio.

Definition maxConsecutiveEmptyReads : nat := 100.

(** [io.ErrNoProgress]. *)
Definition ErrNoProgress : error :=
  fmt_Errorf "multiple Read calls return no data or error".

(** The loop of [b.fill()]: read into the free space of the buffer until
    some bytes or an error arrive, at most [i] times. *)
Fixpoint fill_loop (i : nat) (b : Reader) : Reader :=
  match i with
  | O => {| rbuf := rbuf b; rerr := Some ErrNoProgress;
            rsize := rsize b; rd := rd b |}
  | S i' =>
      let '((data, e), src) := io.Read (rsize b - length (rbuf b)) (rd b) in
      let b := {| rbuf := (rbuf b ++ data)%list; rerr := rerr b;
                  rsize := rsize b; rd := src |} in
      match e with
      | Some e =>
          {| rbuf := rbuf b; rerr := Some e; rsize := rsize b; rd := rd b |}
      | None => if (0 <? length data)%nat then b else fill_loop i' b
      end
  end.

Definition fill (b : Reader) : Reader := fill_loop maxConsecutiveEmptyReads b.

(** The loops of [b.ReadString(delim)] ([collectFragments] around
    [ReadSlice]): [full] holds the full buffers collected so far.  The
    line ends at the first [delim] in the buffer; failing that, a pending
    error ends it; failing that, a full buffer is set aside, or the
    buffer is filled, and the search goes on.  [None] stands for a loop
    that has not ended within [fuel] rounds. *)
Fixpoint ReadString_loop (fuel : nat) (delim : Byte.byte) (full : bytes)
    (b : Reader) : option ((string * option error) * Reader) :=
  match fuel with
  | O => None
  | S fuel' =>
      match IndexByte (rbuf b) delim with
      | Some i =>
          Some ((string_of_bytes (full ++ take (S i) (rbuf b)), None),
                {| rbuf := drop (S i) (rbuf b); rerr := rerr b;
                   rsize := rsize b; rd := rd b |})
      | None =>
          match rerr b with
          | Some e =>
              Some ((string_of_bytes (full ++ rbuf b), Some e),
                    {| rbuf := []; rerr := None; rsize := rsize b; rd := rd b |})
          | None =>
              if (rsize b <=? length (rbuf b))%nat then
                ReadString_loop fuel' delim (full ++ rbuf b)%list
                  {| rbuf := []; rerr := None; rsize := rsize b; rd := rd b |}
              else ReadString_loop fuel' delim full (fill b)
          end
      end
  end.

(** Rounds that suffice for a reader with a buffer of positive size:
    every fill takes a chunk, or part of one, from the stream or leaves an
    error, and a full buffer is set aside only after a fill. *)
Definition enough (b : Reader) : nat :=
  (2 * (length (concat (rd b)) + length (rd b)) + 5)%nat.

Definition ReadString (delim : Byte.byte) (b : Reader)
  : option ((string * option error) * Reader) :=
  ReadString_loop (enough b) delim [] b.
End bufio_lines.

Module client.
(** How the client's [main] ends: [log.Fatal] with its arguments, or a
    normal return after printing the message. *)
Inductive outcome : Type :=
| Fatal (v : list string)
| Printed (stdout : string).

Definition CRLF : string := String "013" (String "010" EmptyString).

(** [fmt.Fprintf(conn, ...)] with the formatted text; its results are
    ignored by the caller. *)
Definition Fprintf (conn : io.Sink) (text : string) : io.Sink :=
  (io.Write (bytes_of_string text) conn).2.

(** The upgrade request, written line by line. *)
Definition writeRequest (conn : io.Sink) (uRequestURI uHost : string)
    (secWebSocketKey : string) : io.Sink :=
  let conn := Fprintf conn ("GET " ++ uRequestURI ++ " HTTP/1.1" ++ CRLF) in
  let conn := Fprintf conn ("Host: " ++ uHost ++ CRLF) in
  let conn := Fprintf conn ("Upgrade: websocket" ++ CRLF) in
  let conn := Fprintf conn ("Connection: Upgrade" ++ CRLF) in
  let conn := Fprintf conn ("Sec-WebSocket-Key: " ++ secWebSocketKey ++ CRLF) in
  let conn := Fprintf conn ("Sec-WebSocket-Version: 13" ++ CRLF) in
  let conn := Fprintf conn ("Origin: http://localhost:8080" ++ CRLF) in
  Fprintf conn CRLF.

(** The loop that skips the response headers: lines are read until one
    is the empty line; a read error ends it.  Every line read without
    error takes at least its delimiter from the reader, which bounds the
    number of rounds. *)
Fixpoint skipHeaders (fuel : nat) (reader : bufio.Reader)
  : option (option error * bufio.Reader) :=
  match fuel with
  | O => None
  | S fuel' =>
      match bufio_lines.ReadString x0a reader with
      | None => None
      | Some ((line, Some err), reader) => Some (Some err, reader)
      | Some ((line, None), reader) =>
          if bool_decide (line = CRLF) then Some (None, reader)
          else skipHeaders fuel' reader
      end
  end.

(** [main] once [net.Dial] has returned the connection: [uHost] and
    [uRequestURI] are [u.Host] and [u.RequestURI()] of the parsed server
    URL, [key] the 16 bytes obtained from [rand.Read]; the connection is
    its sink for writes and its stream for reads.  The result is the
    outcome and what was written; [None] stands for a loop cut short. *)
Definition main (uHost uRequestURI : string) (key : bytes)
    (conn_w : io.Sink) (conn_r : io.Source) : option (outcome * io.Sink) :=
  let secWebSocketKey := base64.EncodeToString key in
  let conn_w := writeRequest conn_w uRequestURI uHost secWebSocketKey in
  let reader := bufio.NewReader conn_r in
  match bufio_lines.ReadString x0a reader with
  | None => None
  | Some ((status, Some err), reader) =>
      Some (Fatal ["Error reading status line:"; error_Error err], conn_w)
  | Some ((status, None), reader) =>
      if negb (strings.Contains status "101") then
        Some (Fatal ["Did not receive 101 Switching Protocols"], conn_w)
      else
        match skipHeaders (S (remaining reader)) reader with
        | None => None
        | Some (Some err, reader) =>
            Some (Fatal ["Error reading headers:"; error_Error err], conn_w)
        | Some (None, reader) =>
            let '((message, err), reader) := readTextMessage reader in
            match err with
            | Some err =>
                Some (Fatal ["Error reading message:"; error_Error err], conn_w)
            | None =>
                Some (Printed ("Received from server: " ++ message
                               ++ String "010" EmptyString), conn_w)
            end
        end
  end.
End client.

(** ** Notions used to state the further properties *)

(** The world a rejection leaves: the calls made, [http.Error] applied to
    the fresh response writer, no connection. *)
Definition rejected (hj : http.Hijacking) (cs : list Call) (msg : string)
    (code : nat) : World :=
  {| w := http.Error msg code (http.NewResponseWriter hj);
     conn := None;
     calls := (cs ++ [Call_http_Error msg code])%list |}.

(** The three checks of the handler on a request. *)
Definition passes_checks (r : http.Request) : Prop :=
  http.HeaderGet (http.ReqHeader r) "Origin" = "http://localhost:8080"
  ∧ http.HeaderGet (http.ReqHeader r) "Upgrade" = "websocket"
  ∧ http.HeaderGet (http.ReqHeader r) "Sec-WebSocket-Key" ≠ EmptyString.

(** The rounds of the line-reading loop a reader needs at most. *)
Definition needs (b : bufio.Reader) : nat :=
  match bufio.rerr b with
  | Some _ => 1
  | None =>
      2 * (length (concat (bufio.rd b)) + length (bufio.rd b))
      + (if (bufio.rsize b <=? length (bufio.rbuf b))%nat then 3 else 2)
  end.

(** Lines of text as bytes: each line is followed by a line feed. *)
Definition lines (hs : list bytes) : bytes :=
  concat (map (λ h, (h ++ [x0a])%list) hs).

(** A line that has no line feed inside and is not the empty line of the
    header block (a lone carriage return before the line feed). *)
Definition header_line (h : bytes) : Prop := (x0a ∉ h) ∧ h ≠ [x0d].


(** * Properties *)

(** ** Bytes and strings *)

Lemma length_bytes_of_string (s : string) :
  length (bytes_of_string s) = len s.
Proof.
  unfold bytes_of_string, list_byte_of_string, len.
  rewrite length_map. induction s as [|c s IH]; simpl; [done | by rewrite IH].
Qed.

Lemma string_of_bytes_of_string (s : string) :
  string_of_bytes (bytes_of_string s) = s.
Proof. apply string_of_list_byte_of_string. Qed.

Lemma to_N_byte_of_int (n : nat) :
  Byte.to_N (byte_of_int n) = (N.of_nat n mod 256)%N.
Proof.
  unfold byte_of_int.
  destruct (Byte.of_N (N.of_nat n mod 256)) as [b|] eqn:E.
  - by apply Byte.to_of_N.
  - apply Byte.of_N_None_iff in E.
    pose proof (N.mod_upper_bound (N.of_nat n) 256). lia.
Qed.

Lemma to_N_byte_of_int_small (n : nat) :
  (n ≤ 255)%nat → Byte.to_N (byte_of_int n) = N.of_nat n.
Proof.
  intros Hn. rewrite to_N_byte_of_int. apply N.mod_small. lia.
Qed.

(** The header bit tests of the decoder, in terms of bits and remainders. *)
Lemma land_0x80 (b : Byte.byte) :
  negb (N.land (Byte.to_N b) 0x80 =? 0)%N = N.testbit (Byte.to_N b) 7.
Proof. destruct b; reflexivity. Qed.

Lemma land_0x0F (b : Byte.byte) :
  N.land (Byte.to_N b) 0x0F = (Byte.to_N b mod 16)%N.
Proof. change 0x0F%N with (N.ones 4). apply N.land_ones. Qed.

Lemma land_0x7F (b : Byte.byte) :
  N.land (Byte.to_N b) 0x7F = (Byte.to_N b mod 128)%N.
Proof. change 0x7F%N with (N.ones 7). apply N.land_ones. Qed.

Lemma length_byte_small (n : nat) :
  (n ≤ 125)%nat →
  N.testbit (Byte.to_N (byte_of_int n)) 7 = false
  ∧ N.to_nat (Byte.to_N (byte_of_int n) mod 128) = n.
Proof.
  intros Hn. rewrite to_N_byte_of_int_small by lia. split.
  - apply N.bits_above_log2.
    destruct n as [|n]; [done|].
    apply N.log2_lt_pow2; [lia|]. change (2 ^ 7)%N with 128%N. lia.
  - rewrite N.mod_small by lia. lia.
Qed.

(** ** bufio.Writer on a healthy sink *)

Section healthy_writer.
Import bufio io.

Lemma Flush_healthy (b : Writer) :
  healthy b →
  ∃ b', Flush b = (None, b') ∧ healthy b' ∧ wsize b' = wsize b
        ∧ wbuf b' = [] ∧ out (wr b') = accepted b.
Proof.
  intros [He Hb]. unfold Flush, accepted. rewrite He.
  destruct (length (wbuf b) =? 0)%nat eqn:Hl.
  - apply Nat.eqb_eq, nil_length_inv in Hl.
    exists b. rewrite Hl, app_nil_r. by repeat split.
  - unfold io.Write. rewrite Hb, Nat.ltb_irrefl. eexists. by repeat split.
Qed.

Lemma Write_loop_S (fuel : nat) (p : bytes) (nn : nat) (b : Writer) :
  Write_loop (S fuel) p nn b =
  if (Available b <? length p)%nat && bool_decide (werr b = None) then
    if (length (wbuf b) =? 0)%nat then
      let '((n, e), s) := io.Write p (wr b) in
      Write_loop fuel (drop n p) (nn + n)%nat
        {| wbuf := wbuf b; werr := e; wsize := wsize b; wr := s |}
    else
      let n := Nat.min (Available b) (length p) in
      let '(_, b') :=
        Flush {| wbuf := (wbuf b ++ take n p)%list; werr := werr b;
                 wsize := wsize b; wr := wr b |} in
      Write_loop fuel (drop n p) (nn + n)%nat b'
  else ((p, nn), b).
Proof. reflexivity. Qed.

Lemma Write_loop_healthy (fuel : nat) :
  ∀ (p : bytes) (nn : nat) (b : Writer),
    healthy b →
    (2 * length p + (if wbuf b is [] then 0 else 1) < fuel)%nat →
    ∃ p' nn' b',
      Write_loop fuel p nn b = ((p', nn'), b')
      ∧ healthy b' ∧ wsize b' = wsize b
      ∧ (length p' ≤ Available b')%nat
      ∧ (accepted b' ++ p' = accepted b ++ p)%list
      ∧ (nn' + length p' = nn + length p)%nat.
Proof.
  induction fuel as [|fuel IH]; intros p nn b [He Hb] Hfuel; [lia|].
  rewrite Write_loop_S, He, bool_decide_eq_true_2, andb_true_r by done.
  destruct (Available b <? length p)%nat eqn:Ha.
  - apply Nat.ltb_lt in Ha.
    destruct (length (wbuf b) =? 0)%nat eqn:Hl.
    + apply Nat.eqb_eq, nil_length_inv in Hl.
      unfold io.Write. rewrite Hb. cbv beta iota. rewrite drop_all.
      edestruct (IH [] (nn + length p)
                   {| wbuf := wbuf b; werr := None; wsize := wsize b;
                      wr := {| out := out (wr b) ++ p; broken := None |} |})
        as (p' & nn' & b' & -> & Hh & Hs & Hav & Hacc & Hnn);
        [done | rewrite Hl; simpl; lia |].
      exists p', nn', b'. repeat split; try done; try apply Hh.
      * rewrite Hacc. unfold accepted. simpl. rewrite Hl.
        by rewrite !app_nil_r.
      * simpl in Hnn. lia.
    + apply Nat.eqb_neq in Hl.
      cbv zeta. set (n := Nat.min (Available b) (length p)).
      set (b1 := {| wbuf := wbuf b ++ take n p; werr := None;
                    wsize := wsize b; wr := wr b |}).
      destruct (Flush_healthy b1) as (b2 & -> & Hh2 & Hs2 & Hw2 & Ho2);
        [done|].
      edestruct (IH (drop n p) (nn + n) b2)
        as (p' & nn' & b' & -> & Hh & Hs & Hav & Hacc & Hnn);
        [done | |].
      { rewrite Hw2, length_drop. subst n.
        destruct (wbuf b); [done|]. unfold Available in *. simpl in *. lia. }
      exists p', nn', b'. repeat split; try done; try apply Hh.
      * by rewrite Hs, Hs2.
      * rewrite Hacc. unfold accepted at 1. rewrite Ho2, Hw2, app_nil_r.
        unfold accepted, b1. simpl.
        by rewrite <- !app_assoc, take_drop.
      * rewrite length_drop in Hnn. subst n. lia.
  - apply Nat.ltb_ge in Ha. exists p, nn, b. by repeat split.
Qed.

Lemma Write_healthy (p : bytes) (b : Writer) :
  healthy b →
  ∃ b', bufio.Write p b = ((length p, None), b') ∧ healthy b'
        ∧ wsize b' = wsize b ∧ accepted b' = (accepted b ++ p)%list.
Proof.
  intros Hh. unfold bufio.Write.
  destruct (Write_loop_healthy (2 * length p + 2) p 0 b)
    as (p' & nn' & b' & -> & [He Hb] & Hs & Hav & Hacc & Hnn); [done | |].
  { destruct (wbuf b); lia. }
  rewrite He, Nat.min_r, firstn_all by done.
  eexists. split; [repeat f_equal; lia|]. repeat split; try done.
  rewrite <- Hacc. unfold accepted. simpl. by rewrite app_assoc.
Qed.
End healthy_writer.

(** ** sendTextMessage *)

Lemma sendTextMessage_healthy (w0 : bufio.Writer) (message : string) :
  healthy w0 → (len message ≤ 125)%nat →
  ∃ w1, sendTextMessage w0 message = (None, w1)
        ∧ healthy w1 ∧ bufio.wbuf w1 = []
        ∧ bufio.wsize w1 = bufio.wsize w0
        ∧ io.out (bufio.wr w1) = (accepted w0 ++ text_frame message)%list.
Proof.
  intros Hh Hlen. unfold sendTextMessage.
  replace (125 <? len message)%nat with false
    by (symmetry; apply Nat.ltb_ge; lia).
  destruct (Write_healthy
              (([x81] ++ [byte_of_int (len message)]) ++ bytes_of_string message)
              w0 Hh) as (w1 & -> & Hh1 & Hs1 & Hacc).
  destruct (Flush_healthy w1 Hh1) as (w2 & -> & Hh2 & Hs2 & Hbuf & Hout).
  exists w2. repeat split; try done; try apply Hh2.
  - by rewrite Hs2.
  - by rewrite Hout, Hacc.
Qed.

(** On the fresh writer of a connection that accepts writes. *)
Lemma sendTextMessage_NewWriter (c : io.Sink) (message : string) :
  io.broken c = None → (len message ≤ 125)%nat →
  sendTextMessage (bufio.NewWriter c) message =
  (None,
   bufio.NewWriter
     {| io.out := (io.out c ++ text_frame message)%list; io.broken := None |}).
Proof.
  intros Hc Hlen.
  destruct (sendTextMessage_healthy (bufio.NewWriter c) message)
    as (w1 & -> & [He Hb] & Hbuf & Hs & Hout); [done | done |].
  unfold accepted in Hout. simpl in Hout, Hs. rewrite app_nil_r in Hout.
  destruct w1 as [wb we ws [o b]]. simpl in *. by subst.
Qed.

Lemma sendTextMessage_too_long (w0 : bufio.Writer) (message : string) :
  (126 ≤ len message)%nat →
  sendTextMessage w0 message = (Some PayloadTooLarge, w0).
Proof.
  intros Hlen. unfold sendTextMessage.
  by replace (125 <? len message)%nat with true
    by (symmetry; apply Nat.ltb_lt; lia).
Qed.

(** ** bufio.Reader *)

Lemma io_Read_remaining (cap : nat) (s s' : io.Source) (data : bytes)
    (e : option error) :
  io.Read cap s = ((data, e), s') →
  length (concat s) = (length data + length (concat s'))%nat.
Proof.
  destruct s as [|c s]; simpl.
  - by intros [= <- <- <-].
  - destruct (length c <=? cap)%nat eqn:Hc; intros [= <- <- <-]; simpl.
    + by rewrite length_app.
    + rewrite !length_app, length_take, length_drop.
      apply Nat.leb_gt in Hc. lia.
Qed.

(** A read hands over exactly the bytes it takes from the reader. *)
Lemma Read_remaining (p p' : bytes) (n : nat) (e : option error)
    (r r' : bufio.Reader) :
  bufio.Read p r = ((p', n, e), r') →
  remaining r = (n + remaining r')%nat ∧ (n ≤ length p)%nat.
Proof.
  unfold bufio.Read, remaining, bufio.Buffered, bufio.readErr, copy.
  destruct (length p =? 0)%nat eqn:Hp.
  { destruct (0 <? length (bufio.rbuf r))%nat; intros [= <- <- <- <-];
      simpl; lia. }
  destruct (length (bufio.rbuf r) =? 0)%nat eqn:Hb.
  - apply Nat.eqb_eq in Hb. destruct (bufio.rerr r).
    { intros [= <- <- <- <-]; simpl; lia. }
    destruct (bufio.rsize r <=? length p)%nat.
    + destruct (io.Read (length p) (bufio.rd r)) as [[data e'] src] eqn:Hio.
      pose proof (io_Read_remaining _ _ _ _ _ Hio) as Hrem.
      assert (length data ≤ length p)%nat as Hle.
      { revert Hio. unfold io.Read. destruct (bufio.rd r) as [|c s].
        - intros [= <- _ _]. simpl. lia.
        - destruct (length c <=? length p)%nat eqn:Hc; intros [= <- _ _].
          + by apply Nat.leb_le.
          + rewrite length_take. lia. }
      intros [= <- <- <- <-]. simpl. lia.
    + destruct (io.Read (bufio.rsize r) (bufio.rd r)) as [[data e'] src] eqn:Hio.
      pose proof (io_Read_remaining _ _ _ _ _ Hio) as Hrem. simpl.
      destruct (length data =? 0)%nat eqn:Hd.
      * apply Nat.eqb_eq in Hd. intros [= <- <- <- <-]. simpl. lia.
      * intros [= <- <- <- <-]. simpl. rewrite length_drop. lia.
  - intros [= <- <- <- <-]. simpl. rewrite length_drop. lia.
Qed.

(** Reading from a non-empty buffer only copies out of it. *)
Lemma Read_buffered (p : bytes) (r : bufio.Reader) :
  p ≠ [] → bufio.rbuf r ≠ [] →
  bufio.Read p r =
  (((copy p (bufio.rbuf r)).1, (copy p (bufio.rbuf r)).2, None),
   {| bufio.rbuf := drop (copy p (bufio.rbuf r)).2 (bufio.rbuf r);
      bufio.rerr := bufio.rerr r; bufio.rsize := bufio.rsize r;
      bufio.rd := bufio.rd r |}).
Proof.
  intros Hp Hb. unfold bufio.Read, bufio.Buffered.
  destruct p as [|x p]; [done|]. destruct (bufio.rbuf r) as [|y b]; [done|].
  reflexivity.
Qed.

(** The first read of an in-memory stream buffers all of it. *)
Lemma Read_stream_of (p input : bytes) :
  p ≠ [] → input ≠ [] →
  (length p < bufio.defaultBufSize)%nat →
  (length input ≤ bufio.defaultBufSize)%nat →
  bufio.Read p (stream_of input) =
  (((copy p input).1, (copy p input).2, None),
   {| bufio.rbuf := drop (copy p input).2 input; bufio.rerr := None;
      bufio.rsize := bufio.defaultBufSize; bufio.rd := [] |}).
Proof.
  intros Hp Hi Hlp Hli. unfold bufio.Read, stream_of, bufio.NewReader.
  destruct p as [|x p]; [done|]. destruct input as [|y input]; [done|].
  cbn [length Nat.eqb bufio.Buffered bufio.rbuf bufio.rerr bufio.rsize
       bufio.rd io.bytes_NewReader io.Read].
  replace (bufio.defaultBufSize <=? S (length p))%nat with false
    by (symmetry; apply Nat.leb_gt; simpl in Hlp; lia).
  replace (S (length input) <=? bufio.defaultBufSize)%nat with true
    by (symmetry; apply Nat.leb_le; simpl in Hli; lia).
  reflexivity.
Qed.

(** What [readTextMessage] does once its header read has returned. *)
Lemma readTextMessage_after_header (r r1 : bufio.Reader) (header : bytes)
    (n : nat) :
  bufio.Read (make 2) r = ((header, n, None), r1) →
  readTextMessage r =
  let b0 := Byte.to_N (nth 0 header x00) in
  let b1 := Byte.to_N (nth 1 header x00) in
  if negb (N.testbit b0 7) then ((EmptyString, Some UnsupportedFragmentation), r1)
  else if negb (b0 mod 16 =? 1)%N then
    ((EmptyString, Some UnsupportedFrameType), r1)
  else if N.testbit b1 7 then ((EmptyString, Some MaskingPolicyViolation), r1)
  else
    let '((payload, _, err), r2) := bufio.Read (make (N.to_nat (b1 mod 128))) r1 in
    match err with
    | Some e => ((EmptyString, Some e), r2)
    | None => ((string_of_bytes payload, None), r2)
    end.
Proof.
  intros Hread. unfold readTextMessage. rewrite Hread. cbv zeta.
  by rewrite !land_0x80, land_0x0F, land_0x7F.
Qed.

Lemma make_length (n : nat) : length (make n) = n.
Proof. apply repeat_length. Qed.

(** Decoding an in-memory stream that holds one unmasked text frame. *)
Lemma decode_text_frame (text : string) :
  (len text ≤ 125)%nat →
  (readTextMessage (stream_of (text_frame text))).1 = (text, None).
Proof.
  intros Hlen.
  pose proof (length_bytes_of_string text) as Hpl.
  destruct (length_byte_small (len text) Hlen) as [Hbit Hn].
  erewrite readTextMessage_after_header; last first.
  { unfold text_frame. apply Read_stream_of; try done.
    - unfold make, bufio.defaultBufSize. simpl. lia.
    - unfold bufio.defaultBufSize. simpl. lia. }
  cbn [copy text_frame app make repeat length Nat.min take drop fst snd nth].
  change (Byte.to_N x81) with 129%N.
  change (N.testbit 129 7) with true.
  change (129 mod 16 =? 1)%N with true.
  cbn [negb]. rewrite Hbit, Hn.
  destruct (bytes_of_string text) as [|x payload] eqn:Hp.
  - simpl in Hpl. rewrite <- Hpl. simpl.
    destruct text; [done | discriminate Hpl].
  - rewrite Read_buffered; [| rewrite <- Hpl; done | done].
    cbn [fst snd copy]. rewrite make_length, <- Hpl, Nat.min_id, firstn_all.
    cbn [bufio.rbuf drop].
    rewrite drop_ge, app_nil_r, <- Hp by (rewrite make_length; lia).
    by rewrite string_of_bytes_of_string.
Qed.

(** [readTextMessage] depends on the reader through its header read only. *)
Lemma readTextMessage_ext (r r' : bufio.Reader) :
  bufio.Read (make 2) r = bufio.Read (make 2) r' →
  readTextMessage r = readTextMessage r'.
Proof. intros H. unfold readTextMessage. by rewrite H. Qed.

(** The first read of a fresh reader moves (the start of) the first chunk
    into the buffer and then reads from the buffer. *)
Lemma Read_fill (p c : bytes) (s : io.Source) :
  p ≠ [] → c ≠ [] → (length p < bufio.defaultBufSize)%nat →
  ∃ data s',
    io.Read bufio.defaultBufSize (c :: s) = ((data, None), s')
    ∧ data = take bufio.defaultBufSize c
    ∧ bufio.Read p (bufio.NewReader (c :: s)) =
      bufio.Read p {| bufio.rbuf := data; bufio.rerr := None;
                      bufio.rsize := bufio.defaultBufSize; bufio.rd := s' |}.
Proof.
  intros Hp Hc Hlen.
  assert (∃ data s', io.Read bufio.defaultBufSize (c :: s) = ((data, None), s')
                     ∧ data = take bufio.defaultBufSize c ∧ data ≠ [])
    as (data & s' & Hio & Hdata & Hne).
  { unfold io.Read.
    destruct (length c <=? bufio.defaultBufSize)%nat eqn:Hle.
    - exists c, s. apply Nat.leb_le in Hle.
      repeat split; [by rewrite take_ge | done].
    - eexists _, _. repeat split.
      destruct c; [done|]. unfold bufio.defaultBufSize. discriminate. }
  exists data, s'. repeat split; try done.
  rewrite (Read_buffered p {| bufio.rbuf := data |}) by done.
  unfold bufio.Read, bufio.NewReader.
  cbn [bufio.Buffered bufio.rbuf bufio.rerr bufio.rsize bufio.rd].
  destruct p as [|x p]; [done|].
  cbn [length Nat.eqb].
  replace (bufio.defaultBufSize <=? S (length p))%nat with false
    by (symmetry; apply Nat.leb_gt; simpl in Hlen; lia).
  rewrite Hio.
  destruct data as [|y data]; [done|]. reflexivity.
Qed.

(** Decoding a frame that sits at the front of the reader's buffer. *)
Lemma decode_buffered_frame (r : bufio.Reader) (b0 b1 : Byte.byte)
    (payload rest : bytes) :
  bufio.rbuf r = (b0 :: b1 :: payload ++ rest)%list →
  bufio.rerr r = None →
  N.testbit (Byte.to_N b0) 7 = true →
  (Byte.to_N b0 mod 16)%N = 1%N →
  N.testbit (Byte.to_N b1) 7 = false →
  length payload = N.to_nat (Byte.to_N b1 mod 128) →
  readTextMessage r =
  ((string_of_bytes payload, None),
   {| bufio.rbuf := rest; bufio.rerr := None;
      bufio.rsize := bufio.rsize r; bufio.rd := bufio.rd r |}).
Proof.
  intros Hbuf Herr Hfin Hop Hmask Hlen.
  erewrite readTextMessage_after_header; last first.
  { rewrite Read_buffered by (by rewrite ?Hbuf). rewrite Hbuf, Herr.
    reflexivity. }
  cbn [copy make repeat length Nat.min take drop fst snd app nth].
  rewrite Hfin, Hop, Hmask, <- Hlen. cbn [negb N.eqb Pos.eqb].
  destruct payload as [|x payload].
  - unfold bufio.Read, bufio.Buffered, bufio.readErr.
    cbn [make repeat length Nat.eqb bufio.rbuf bufio.rerr bufio.rsize bufio.rd app].
    by destruct rest.
  - rewrite Read_buffered by done.
    cbn [bufio.rbuf bufio.rerr bufio.rsize bufio.rd copy fst snd].
    rewrite make_length, !drop_0.
    rewrite Nat.min_l by (rewrite length_app; lia).
    rewrite take_app_length, drop_app_length.
    rewrite drop_ge, app_nil_r by (rewrite make_length; lia).
    reflexivity.
Qed.

(** A reader that has two bytes at the front of its buffer, or a fresh
    reader whose stream starts with a chunk of at least two bytes,
    delivers both to the header read. *)
Lemma header_read_delivers (r : bufio.Reader) (b0 b1 : Byte.byte)
    (rest : bytes) :
  bufio.rbuf r = b0 :: b1 :: rest
  ∨ (∃ s, r = bufio.NewReader ((b0 :: b1 :: rest) :: s)) →
  ∃ r1, bufio.Read (make 2) r = (([b0; b1], 2%nat, None), r1).
Proof.
  assert (∀ r' rest', bufio.rbuf r' = b0 :: b1 :: rest' →
                ∃ r1, bufio.Read (make 2) r' = (([b0; b1], 2%nat, None), r1))
    as Hbuffered.
  { intros r' rest' Hbuf. eexists.
    rewrite Read_buffered by (by rewrite ?Hbuf). rewrite Hbuf. reflexivity. }
  intros [Hbuf | [s ->]]; [by eapply Hbuffered|].
  destruct (Read_fill (make 2) (b0 :: b1 :: rest) s)
    as (data & s' & _ & Hdata & ->); [done | done | |].
  { unfold bufio.defaultBufSize. simpl. lia. }
  apply (Hbuffered _ (take (bufio.defaultBufSize - 2) rest)). rewrite Hdata.
  change bufio.defaultBufSize with (S (S 4094)). reflexivity.
Qed.

Lemma remaining_content (r : bufio.Reader) : remaining r = length (content r).
Proof. unfold remaining, content. by rewrite length_app. Qed.

(** A read whose bytes are at hand delivers exactly the next [k] bytes of
    the reader's content and leaves the rest. *)
Lemma Read_at_hand (k : nat) (r : bufio.Reader) :
  at_hand k r →
  ∃ r', bufio.Read (make k) r = ((take k (content r), k, None), r')
        ∧ content r' = drop k (content r)
        ∧ (k ≤ length (content r))%nat.
Proof.
  destruct r as [b e sz src]. unfold at_hand, content.
  cbn [bufio.rbuf bufio.rerr bufio.rsize bufio.rd]. intros H.
  destruct b as [|y b].
  - destruct H as [-> H]. destruct k as [|k].
    { eexists. split; [reflexivity|]. cbn [bufio.rbuf bufio.rd]. split; [done | lia]. }
    destruct H as [H | H]; [done|]. destruct src as [|c s]; [done|].
    assert (take (S k) (c ++ concat s) = take (S k) c) as Htake
      by (by rewrite take_app_le).
    unfold bufio.Read, bufio.Buffered, bufio.readErr.
    cbn [bufio.rbuf bufio.rerr bufio.rsize bufio.rd app concat].
    rewrite make_length. cbn [length Nat.eqb].
    destruct (sz <=? S k)%nat eqn:Hsz.
    + unfold io.Read. destruct (length c <=? S k)%nat eqn:Hlc.
      * apply Nat.leb_le in Hlc. unfold copy. rewrite make_length.
        rewrite Nat.min_l by lia. eexists. split.
        { rewrite Htake, (take_ge c) by lia.
          rewrite drop_ge by (rewrite ?make_length; lia).
          by rewrite app_nil_r. }
        cbn [bufio.rbuf bufio.rd app]. rewrite length_app.
        split; [| lia]. replace (S k) with (length c) by lia.
        by rewrite drop_app_length.
      * apply Nat.leb_gt in Hlc. unfold copy.
        rewrite make_length, length_take, Nat.min_l by lia.
        rewrite ?Nat.min_l by lia. eexists. split.
        { rewrite Htake, take_take, Nat.min_id.
          rewrite drop_ge, app_nil_r by (rewrite make_length; lia).
          reflexivity. }
        cbn [bufio.rbuf bufio.rd app concat]. rewrite length_app.
        split; [| lia]. by rewrite drop_app_le by lia.
    + apply Nat.leb_gt in Hsz. unfold io.Read.
      destruct (length c <=? sz)%nat eqn:Hlc.
      * apply Nat.leb_le in Hlc.
        cbn [bufio.rbuf bufio.rerr bufio.rsize bufio.rd].
        destruct (length c =? 0)%nat eqn:Hz; [apply Nat.eqb_eq in Hz; lia|].
        unfold copy. rewrite make_length. cbn [bufio.rbuf].
        rewrite Nat.min_l by lia. eexists. split.
        { rewrite Htake.
          rewrite drop_ge, app_nil_r by (rewrite make_length; lia).
          reflexivity. }
        cbn [bufio.rbuf bufio.rd]. rewrite length_app.
        split; [| lia]. by rewrite drop_app_le by lia.
      * apply Nat.leb_gt in Hlc.
        cbn [bufio.rbuf bufio.rerr bufio.rsize bufio.rd].
        rewrite length_take.
        destruct (sz `min` length c =? 0)%nat eqn:Hz;
          [apply Nat.eqb_eq in Hz; lia|].
        unfold copy. rewrite make_length, length_take. cbn [bufio.rbuf].
        rewrite (Nat.min_l (S k)) by lia. eexists. split.
        { rewrite Htake, take_take, Nat.min_l by lia.
          rewrite drop_ge, app_nil_r by (rewrite make_length; lia).
          reflexivity. }
        cbn [bufio.rbuf bufio.rd concat]. rewrite length_app.
        split; [| lia].
        transitivity (drop (S k) ((take sz c ++ drop sz c) ++ concat s));
          [| by rewrite take_drop].
        by rewrite <- app_assoc, drop_app_le by (rewrite length_take; lia).
  - destruct k as [|k].
    { eexists. split; [reflexivity|]. split; [done | lia]. }
    rewrite Read_buffered by done.
    cbn [bufio.rbuf bufio.rerr bufio.rsize bufio.rd].
    unfold copy. rewrite make_length, Nat.min_l by done.
    eexists. split.
    { rewrite take_app_le by done.
      rewrite drop_ge, app_nil_r by (rewrite make_length; lia).
      reflexivity. }
    cbn [bufio.rbuf bufio.rd fst snd]. rewrite length_app.
    split; [| lia]. by rewrite drop_app_le by done.
Qed.

(** Conversely, a read that returns the count it was asked for, without
    error, found the bytes at hand. *)
Lemma Read_obtains_at_hand (k : nat) (r r' : bufio.Reader) (p : bytes) :
  bufio.Read (make k) r = ((p, k, None), r') → at_hand k r.
Proof.
  destruct r as [b e sz src]. unfold at_hand.
  cbn [bufio.rbuf bufio.rerr bufio.rsize bufio.rd].
  intros H.
  assert ((bufio.Read (make k) (bufio.Build_Reader b e sz src)).1.1.2 = k
          ∧ (bufio.Read (make k) (bufio.Build_Reader b e sz src)).1.2 = None)
    as [Hn He] by (by rewrite H).
  clear H. revert Hn He.
  destruct b as [|y b].
  - unfold bufio.Read, bufio.Buffered, bufio.readErr.
    cbn [bufio.rbuf bufio.rerr bufio.rsize bufio.rd].
    rewrite make_length. destruct k as [|k].
    { cbn [length Nat.eqb Nat.ltb Nat.leb fst snd]. intros _ ->.
      split; [done | by left]. }
    cbn [length Nat.eqb].
    destruct e as [e|]; [cbn [fst snd]; intros Hk; lia|].
    destruct src as [|c s].
    { cbn [io.Read]. unfold copy. rewrite make_length.
      destruct (sz <=? S k)%nat; cbn [fst snd length Nat.eqb bufio.rbuf];
        rewrite ?Nat.min_0_r; intros Hk; lia. }
    unfold io.Read, copy. rewrite make_length.
    destruct (sz <=? S k)%nat eqn:Hsz.
    + destruct (length c <=? S k)%nat eqn:Hlc; cbn [fst snd];
        rewrite ?length_take; intros Hk _; (split; [done|]); right; lia.
    + apply Nat.leb_gt in Hsz.
      destruct (length c <=? sz)%nat eqn:Hlc;
        cbn [bufio.rbuf bufio.rerr bufio.rsize bufio.rd].
      * destruct (length c =? 0)%nat; cbn [fst snd]; intros Hk _;
          (split; [done|]); right; lia.
      * rewrite length_take.
        destruct (sz `min` length c =? 0)%nat; cbn [fst snd]; intros Hk _;
          (split; [done|]); right; lia.
  - destruct k as [|k]; [intros _ _; cbn [length]; lia|].
    rewrite Read_buffered by done.
    cbn [bufio.rbuf bufio.rerr bufio.rsize bufio.rd].
    unfold copy. rewrite make_length. cbn [fst snd].
    intros Hk _. cbn [length] in *. lia.
Qed.

(** ** The accept key *)

Example sha1_empty :
  map Byte.to_N (sha1.Sum []) =
  [0xda; 0x39; 0xa3; 0xee; 0x5e; 0x6b; 0x4b; 0x0d; 0x32; 0x55;
   0xbf; 0xef; 0x95; 0x60; 0x18; 0x90; 0xaf; 0xd8; 0x07; 0x09]%N.
Proof. vm_compute. reflexivity. Qed.

Example sha1_abc :
  map Byte.to_N (sha1.Sum (bytes_of_string "abc")) =
  [0xa9; 0x99; 0x3e; 0x36; 0x47; 0x06; 0x81; 0x6a; 0xba; 0x3e;
   0x25; 0x71; 0x78; 0x50; 0xc2; 0x6c; 0x9c; 0xd0; 0xd8; 0x9d]%N.
Proof. vm_compute. reflexivity. Qed.

Example sha1_two_blocks :
  map Byte.to_N
    (sha1.Sum (bytes_of_string
                 "abcdbcdecdefdefgefghfghighijhijkijkljklmklmnlmnomnopnopq")) =
  [0x84; 0x98; 0x3e; 0x44; 0x1c; 0x3b; 0xd2; 0x6e; 0xba; 0xae;
   0x4a; 0xa1; 0xf9; 0x51; 0x29; 0xe5; 0xe5; 0x46; 0x70; 0xf1]%N.
Proof. vm_compute. reflexivity. Qed.

Example base64_vectors :
  base64.EncodeToString [] = EmptyString
  ∧ base64.EncodeToString (bytes_of_string "f") = "Zg=="
  ∧ base64.EncodeToString (bytes_of_string "fo") = "Zm8="
  ∧ base64.EncodeToString (bytes_of_string "foo") = "Zm9v"
  ∧ base64.EncodeToString (bytes_of_string "foobar") = "Zm9vYmFy".
Proof. vm_compute. by repeat split. Qed.

(** A SHA-1 digest has 20 bytes, so an accept key has 28 characters. *)
Lemma sha1_Sum_length (msg : bytes) : length (sha1.Sum msg) = 20%nat.
Proof. unfold sha1.Sum. by destruct (sha1.blocks _ _ _). Qed.

Lemma computeAcceptKey_length (k : string) :
  String.length (computeAcceptKey k) = 28%nat.
Proof.
  unfold computeAcceptKey, sha1.HashSum, base64.EncodeToString.
  cbn [app].
  pose proof (sha1_Sum_length (sha1.written
                (sha1.Write sha1.New (bytes_of_string (k ++ magicString)))))
    as Hlen.
  rewrite <- (length_map Byte.to_N) in Hlen.
  destruct (map Byte.to_N _) as [|a1 l]; [done|].
  do 19 (destruct l as [|? l]; [done|]).
  destruct l; [reflexivity | done].
Qed.

(** C1. For every key [k], [computeAcceptKey k] is the base64 encoding of
    the SHA-1 digest of [k] followed by the fixed 36-byte constant
    "258EAFA5-E914-47DA-95CA-C5AB0DC85B11"; for the key
    "dGhlIHNhbXBsZSBub25jZQ==" it is "s3pPLMBiTxaQ9kYGzzhZRbK+xOo=".  The
    result depends on the key only. *)
Theorem computeAcceptKey_spec :
  (∀ k : string,
     computeAcceptKey k =
     base64.EncodeToString
       (sha1.Sum (bytes_of_string (k ++ "258EAFA5-E914-47DA-95CA-C5AB0DC85B11"))))
  ∧ len "258EAFA5-E914-47DA-95CA-C5AB0DC85B11" = 36%nat
  ∧ computeAcceptKey "dGhlIHNhbXBsZSBub25jZQ==" = "s3pPLMBiTxaQ9kYGzzhZRbK+xOo=".
Proof.
  split; [| split].
  - intros k. reflexivity.
  - reflexivity.
  - vm_compute. reflexivity.
Qed.

(** ** Encoding *)

(** C7. [sendTextMessage] succeeds for every message of at most 125 bytes
    (on a writer without pending error whose sink accepts writes): the
    sink receives, after what the writer had already accepted, the header
    [0x81, length] and the payload bytes unchanged, the length byte having
    its mask bit clear.  For a message of 126 bytes or more it fails with
    [PayloadTooLarge] and leaves the writer, buffer and sink, untouched. *)
Theorem sendTextMessage_boundary (w0 : bufio.Writer) (message : string) :
  ((len message ≤ 125)%nat → healthy w0 →
   ∃ w1, sendTextMessage w0 message = (None, w1)
         ∧ bufio.wbuf w1 = []
         ∧ io.out (bufio.wr w1) =
           (accepted w0 ++ [x81; byte_of_int (len message)]
              ++ bytes_of_string message)%list
         ∧ Byte.to_N (byte_of_int (len message)) = N.of_nat (len message)
         ∧ N.testbit (Byte.to_N (byte_of_int (len message))) 7 = false)
  ∧ ((126 ≤ len message)%nat →
     sendTextMessage w0 message = (Some PayloadTooLarge, w0)).
Proof.
  split.
  - intros Hlen Hh.
    destruct (sendTextMessage_healthy w0 message Hh Hlen)
      as (w1 & Hsend & _ & Hbuf & _ & Hout).
    exists w1. repeat split; try done.
    + apply to_N_byte_of_int_small. lia.
    + by apply length_byte_small.
  - apply sendTextMessage_too_long.
Qed.

Lemma sendTextMessage_boundary_witness :
  (∃ w1, sendTextMessage (bufio.NewWriter io.bytes_Buffer) (Repeat "a" 125)
         = (None, w1)
         ∧ bufio.wbuf w1 = []
         ∧ io.out (bufio.wr w1) =
           ([] ++ [x81; x7d] ++ bytes_of_string (Repeat "a" 125))%list
         ∧ 125%N = 125%N
         ∧ N.testbit 125 7 = false)
  ∧ sendTextMessage (bufio.NewWriter io.bytes_Buffer) (Repeat "a" 126)
    = (Some PayloadTooLarge, bufio.NewWriter io.bytes_Buffer).
Proof.
  split.
  - apply (proj1 (sendTextMessage_boundary
                    (bufio.NewWriter io.bytes_Buffer) (Repeat "a" 125))).
    + vm_compute. lia.
    + split; reflexivity.
  - apply (proj2 (sendTextMessage_boundary
                    (bufio.NewWriter io.bytes_Buffer) (Repeat "a" 126))).
    vm_compute. lia.
Defined.

(** ** Decoding *)

(** C3. Round trip: for every text of at most 125 bytes, sending it
    unmasked into an in-memory buffer succeeds, and decoding a stream that
    holds exactly the bytes written returns the text with no error. *)
Theorem roundtrip (text : string) :
  (len text ≤ 125)%nat →
  ∃ w1, sendTextMessage (bufio.NewWriter io.bytes_Buffer) text = (None, w1)
        ∧ (readTextMessage (stream_of (io.out (bufio.wr w1)))).1 = (text, None).
Proof.
  intros Hlen.
  destruct (sendTextMessage_healthy (bufio.NewWriter io.bytes_Buffer) text)
    as (w1 & Hsend & _ & _ & _ & Hout); [done | done |].
  exists w1. split; [done|]. rewrite Hout.
  by apply decode_text_frame.
Qed.

Lemma roundtrip_witness :
  ∃ w1, sendTextMessage (bufio.NewWriter io.bytes_Buffer) "Hello, WebSocket!"
        = (None, w1)
        ∧ (readTextMessage (stream_of (io.out (bufio.wr w1)))).1
          = ("Hello, WebSocket!", None).
Proof.
  apply (roundtrip "Hello, WebSocket!"). vm_compute. lia.
Defined.

(** C4, as stated, fails: a stream can hold two header bytes without
    delivering both to the header read.  When the byte 0x81 arrives alone
    and the next chunk starts with 0x80 (mask bit set), the header read
    returns one byte, the decoder takes the second header byte to be 0
    and returns the empty text without error: no masking-policy error,
    although byte 1 of the stream has the mask bit set. *)
Lemma masked_frame_after_one_byte :
  (readTextMessage
     (bufio.NewReader [[x81]; [x80; x00; x00; x00; x00]])).1
  = (EmptyString, None)
  ∧ N.testbit (Byte.to_N x80) 7 = true
  ∧ (2 ≤ remaining (bufio.NewReader [[x81]; [x80; x00; x00; x00; x00]]))%nat.
Proof. split; [by vm_compute | split; [reflexivity | vm_compute; lia]]. Qed.

(** C4, amended.  Once the header read has delivered the two
    header bytes [b0] and [b1], [readTextMessage] goes on to read the
    payload (of the length held in the low 7 bits of [b1]) exactly when
    [b0] has the FIN bit set and the text opcode in its low 4 bits and
    [b1] has the mask bit clear.  Otherwise it stops right after the
    header: with [UnsupportedFragmentation] when FIN is clear, else with
    [UnsupportedFrameType] when the opcode is not 0x1, else with
    [MaskingPolicyViolation].  Decoding [0x81,0x05,'H','e','l','l','o']
    gives "Hello", decoding [0x81,0x00] gives the empty text without
    error, and decoding [0x81,0x80,0,0,0,0] fails with
    [MaskingPolicyViolation]. *)
Theorem header_validation :
  (∀ (r r1 : bufio.Reader) (b0 b1 : Byte.byte),
     bufio.Read (make 2) r = (([b0; b1], 2%nat, None), r1) →
     let fin := N.testbit (Byte.to_N b0) 7 in
     let opcode := (Byte.to_N b0 mod 16)%N in
     let masked := N.testbit (Byte.to_N b1) 7 in
     let payloadLen := N.to_nat (Byte.to_N b1 mod 128) in
     (fin = true ∧ opcode = 1%N ∧ masked = false →
      readTextMessage r =
      let '((payload, _, err), r2) := bufio.Read (make payloadLen) r1 in
      match err with
      | Some e => ((EmptyString, Some e), r2)
      | None => ((string_of_bytes payload, None), r2)
      end)
     ∧ (fin = false →
        readTextMessage r = ((EmptyString, Some UnsupportedFragmentation), r1))
     ∧ (fin = true → opcode ≠ 1%N →
        readTextMessage r = ((EmptyString, Some UnsupportedFrameType), r1))
     ∧ (fin = true → opcode = 1%N → masked = true →
        readTextMessage r = ((EmptyString, Some MaskingPolicyViolation), r1)))
  ∧ (readTextMessage (stream_of [x81; x05; "H"; "e"; "l"; "l"; "o"]%byte)).1
    = ("Hello", None)
  ∧ (readTextMessage (stream_of [x81; x00])).1 = (EmptyString, None)
  ∧ (readTextMessage (stream_of [x81; x80; x00; x00; x00; x00])).1
    = (EmptyString, Some MaskingPolicyViolation).
Proof.
  split; [| by vm_compute].
  intros r r1 b0 b1 Hread fin opcode masked payloadLen.
  rewrite (readTextMessage_after_header _ _ _ _ Hread).
  cbn [nth]. fold fin opcode masked payloadLen.
  repeat split.
  - intros (-> & -> & ->). reflexivity.
  - intros ->. reflexivity.
  - intros -> Hop. apply N.eqb_neq in Hop. by rewrite Hop.
  - intros -> -> ->. reflexivity.
Qed.

Lemma header_validation_witness :
  (readTextMessage (stream_of [x00; x05; "H"; "e"; "l"; "l"; "o"]%byte)
   = ((EmptyString, Some UnsupportedFragmentation),
      {| bufio.rbuf := ["H"; "e"; "l"; "l"; "o"]%byte; bufio.rerr := None;
         bufio.rsize := bufio.defaultBufSize; bufio.rd := [] |}))
  ∧ (readTextMessage (stream_of [x82; x05; "H"; "e"; "l"; "l"; "o"]%byte)
     = ((EmptyString, Some UnsupportedFrameType),
        {| bufio.rbuf := ["H"; "e"; "l"; "l"; "o"]%byte; bufio.rerr := None;
           bufio.rsize := bufio.defaultBufSize; bufio.rd := [] |})).
Proof.
  split.
  - apply (proj1 header_validation
             (stream_of [x00; x05; "H"; "e"; "l"; "l"; "o"]%byte) _ x00 x05);
      reflexivity.
  - apply (proj1 header_validation
             (stream_of [x82; x05; "H"; "e"; "l"; "l"; "o"]%byte) _ x82 x05);
      [reflexivity | reflexivity | discriminate].
Defined.

(** C2. The decoder has no check for the extended-length markers: on the
    stream [0x81,0x7E,0x00,0x7E] it returns without error, taking 126 as
    the payload length and the two extended-length bytes (padded with
    zeros) as the payload; likewise for the marker 127. *)
Theorem readTextMessage_accepts_length_markers :
  (readTextMessage (stream_of [x81; x7e; x00; x7e])).1
  = (string_of_bytes ([x00; x7e] ++ repeat x00 124), None)
  ∧ (readTextMessage (stream_of [x81; x7f; x00; x00; x00; x00; x00; x00; x00; x7f])).1
    = (string_of_bytes ([x00; x00; x00; x00; x00; x00; x00; x7f] ++ repeat x00 119),
       None).
Proof. by vm_compute. Qed.

(** More generally, a frame header 0x81 with length byte 126 or 127 that
    is followed by at least one more byte is decoded without error. *)
Lemma length_marker_never_rejected (b1 : Byte.byte) (rest : bytes) :
  b1 = x7e ∨ b1 = x7f → rest ≠ [] →
  (readTextMessage (stream_of (x81 :: b1 :: rest))).1.2 = None.
Proof.
  intros Hb1 Hrest. unfold stream_of. cbn [io.bytes_NewReader].
  destruct (Read_fill (make 2) (x81 :: b1 :: rest) [])
    as (data & s' & _ & Hdata & Hread); [done | done | |].
  { unfold bufio.defaultBufSize. simpl. lia. }
  rewrite (readTextMessage_ext _ _ Hread).
  assert (∃ y rest', data = x81 :: b1 :: y :: rest') as (y & rest' & ->).
  { rewrite Hdata. change bufio.defaultBufSize with (S (S (S 4093))).
    destruct rest as [|y rest]; [done|]. cbn [take]. eauto. }
  erewrite readTextMessage_after_header; last first.
  { by rewrite Read_buffered. }
  cbn [copy make repeat length Nat.min take drop fst snd app nth bufio.rbuf].
  destruct Hb1 as [-> | ->].
  - change (N.to_nat (Byte.to_N x7e mod 128)) with 126%nat.
    by rewrite Read_buffered.
  - change (N.to_nat (Byte.to_N x7f mod 128)) with 127%nat.
    by rewrite Read_buffered.
Qed.

(** C8, as stated, fails: when the payload of the frame
    0x81 0x05 "Hello" arrives in two chunks, the payload read returns the
    first chunk only and the text is that prefix padded with zero bytes,
    with no error. *)
Lemma readTextMessage_chunked_payload :
  (readTextMessage
     (bufio.NewReader [[x81; x05; "H"; "e"]; ["l"; "l"; "o"]]%byte)).1
  = (string_of_bytes ["H"; "e"; x00; x00; x00]%byte, None)
  ∧ string_of_bytes ["H"; "e"; x00; x00; x00]%byte ≠ "Hello".
Proof. split; [by vm_compute | discriminate]. Qed.

(** C8, amended.  [readTextMessage] issues one read for the header and one
    for the payload.  A read returns the count it was asked for, without
    error, exactly when the bytes are at hand: in the buffer if it is not
    empty, otherwise, with no error pending, at the front of the next
    chunk of the stream.  Whenever the header read and then the payload
    read find their bytes at hand, a frame with a valid header is decoded
    to exactly its payload bytes; exactly the 2 header bytes and the
    payload bytes are consumed, and what follows the frame is left in the
    reader.  This covers a frame in the buffer, a frame at the front of a
    chunk, and a header and a payload that arrive as separate chunks. *)
Theorem decode_delivered_frame :
  (∀ (k : nat) (r : bufio.Reader),
     at_hand k r ↔ ∃ p r', bufio.Read (make k) r = ((p, k, None), r'))
  ∧ (∀ (r : bufio.Reader) (b0 b1 : Byte.byte) (payload rest : bytes),
       content r = (b0 :: b1 :: payload ++ rest)%list →
       at_hand 2 r →
       at_hand (length payload) (bufio.Read (make 2) r).2 →
       N.testbit (Byte.to_N b0) 7 = true →
       (Byte.to_N b0 mod 16)%N = 1%N →
       N.testbit (Byte.to_N b1) 7 = false →
       length payload = N.to_nat (Byte.to_N b1 mod 128) →
       ∃ r2, readTextMessage r = ((string_of_bytes payload, None), r2)
             ∧ content r2 = rest
             ∧ remaining r = (2 + length payload + remaining r2)%nat).
Proof.
  split.
  { intros k r. split.
    - intros H. destruct (Read_at_hand k r H) as (r' & Hread & _). eauto.
    - intros (p & r' & Hread). by eapply Read_obtains_at_hand. }
  intros r b0 b1 payload rest Hc Hhdr Hpl Hfin Hop Hmask Hlen.
  destruct (Read_at_hand 2 r Hhdr) as (r1 & Hread & Hc1 & _).
  rewrite Hread in Hpl. cbn [snd] in Hpl.
  rewrite Hc in Hread, Hc1. cbn [take drop] in Hread, Hc1.
  rewrite drop_0 in Hc1.
  destruct (Read_at_hand _ r1 Hpl) as (r2 & Hread2 & Hc2 & _).
  rewrite Hc1, take_app_length in Hread2.
  rewrite Hc1, drop_app_length in Hc2.
  exists r2. split; [| split; [done|]].
  - rewrite (readTextMessage_after_header _ _ _ _ Hread). cbn [nth].
    rewrite Hfin, Hop, Hmask, <- Hlen. cbn [negb N.eqb Pos.eqb].
    by rewrite Hread2.
  - rewrite !remaining_content, Hc, Hc2. cbn [length].
    rewrite length_app. lia.
Qed.

Lemma decode_delivered_frame_witness :
  ∃ r2, readTextMessage
          (bufio.NewReader [[x81; x05]; ["H"; "e"; "l"; "l"; "o"]; [x81; x00]]%byte)
        = ((string_of_bytes ["H"; "e"; "l"; "l"; "o"]%byte, None), r2)
        ∧ content r2 = [x81; x00]
        ∧ remaining
            (bufio.NewReader [[x81; x05]; ["H"; "e"; "l"; "l"; "o"]; [x81; x00]]%byte)
          = (2 + length ["H"; "e"; "l"; "l"; "o"]%byte + remaining r2)%nat.
Proof.
  apply (proj2 decode_delivered_frame
           (bufio.NewReader [[x81; x05]; ["H"; "e"; "l"; "l"; "o"]; [x81; x00]]%byte)
           x81 x05 ["H"; "e"; "l"; "l"; "o"]%byte [x81; x00]).
  - reflexivity.
  - split; [reflexivity | right; vm_compute; lia].
  - split; [reflexivity | right; vm_compute; lia].
  - reflexivity.
  - reflexivity.
  - reflexivity.
  - reflexivity.
Defined.

(** C10, as stated, fails: on the one-byte stream [0x00] the header read
    returns a single byte, the FIN check fails, and one byte, not two,
    has been consumed.  The same happens when a longer stream delivers
    its first byte alone. *)
Lemma header_error_after_one_byte :
  (readTextMessage (stream_of [x00])).1
  = (EmptyString, Some UnsupportedFragmentation)
  ∧ remaining (stream_of [x00])
    = (1 + remaining (readTextMessage (stream_of [x00])).2)%nat
  ∧ remaining (stream_of [x00])
    ≠ (2 + remaining (readTextMessage (stream_of [x00])).2)%nat
  ∧ (readTextMessage (bufio.NewReader [[x00]; [x05; "H"; "e"; "l"; "l"; "o"]]%byte)).1
    = (EmptyString, Some UnsupportedFragmentation)
  ∧ remaining (bufio.NewReader [[x00]; [x05; "H"; "e"; "l"; "l"; "o"]]%byte)
    = (1 + remaining
             (readTextMessage
                (bufio.NewReader [[x00]; [x05; "H"; "e"; "l"; "l"; "o"]]%byte)).2)%nat.
Proof.
  split; [by vm_compute | split; [by vm_compute | split; [| by vm_compute]]].
  vm_compute. intros H. discriminate H.
Qed.

(** C10, amended.  When the header read delivers both header bytes and a
    header check fails (FIN clear, opcode other than text, or mask bit
    set), [readTextMessage] returns the corresponding error with the
    reader exactly as the header read left it: two bytes consumed, no
    mask-key byte and no payload byte. *)
Theorem header_error_consumes_header_only (r r1 : bufio.Reader)
    (b0 b1 : Byte.byte) :
  bufio.Read (make 2) r = (([b0; b1], 2%nat, None), r1) →
  N.testbit (Byte.to_N b0) 7 = false
  ∨ (Byte.to_N b0 mod 16)%N ≠ 1%N
  ∨ N.testbit (Byte.to_N b1) 7 = true →
  (∃ e, (e = UnsupportedFragmentation ∨ e = UnsupportedFrameType
         ∨ e = MaskingPolicyViolation)
        ∧ readTextMessage r = ((EmptyString, Some e), r1))
  ∧ remaining r = (2 + remaining r1)%nat.
Proof.
  intros Hread Hbad. split.
  - rewrite (readTextMessage_after_header _ _ _ _ Hread). cbn [nth].
    destruct (N.testbit (Byte.to_N b0) 7); [| eauto].
    destruct (N.eqb_spec (Byte.to_N b0 mod 16) 1) as [Hop|Hop]; [| eauto].
    destruct (N.testbit (Byte.to_N b1) 7); [eauto 6 |].
    by destruct Hbad as [? | [? | ?]].
  - by destruct (Read_remaining _ _ _ _ _ _ Hread) as [-> _].
Qed.

Lemma header_error_consumes_header_only_witness :
  (∃ e, (e = UnsupportedFragmentation ∨ e = UnsupportedFrameType
         ∨ e = MaskingPolicyViolation)
        ∧ readTextMessage (stream_of [x81; x80; x00; x00; x00; x00])
          = ((EmptyString, Some e),
             {| bufio.rbuf := [x00; x00; x00; x00]; bufio.rerr := None;
                bufio.rsize := bufio.defaultBufSize; bufio.rd := [] |}))
  ∧ remaining (stream_of [x81; x80; x00; x00; x00; x00])
    = (2 + remaining
             {| bufio.rbuf := [x00; x00; x00; x00]; bufio.rerr := None;
                bufio.rsize := bufio.defaultBufSize; bufio.rd := [] |})%nat.
Proof.
  apply (header_error_consumes_header_only
           (stream_of [x81; x80; x00; x00; x00; x00]) _ x81 x80).
  - reflexivity.
  - right. right. reflexivity.
Defined.

(** ** The handler *)

(** C5, as stated, fails on the body: [http.Error] writes the message as
    a line, so the body of the 403 response is "Origin not allowed"
    followed by a line feed. *)
Lemma origin_rejected_body_is_a_line :
  let s := serve http.NotHijacker
             (NewRequest [("Origin", "http://example.com");
                          ("Upgrade", "websocket");
                          ("Sec-WebSocket-Key", "dGhlIHNhbXBsZSBub25jZQ==")]) in
  http.Code (w s) = http.StatusForbidden
  ∧ http.body (w s) ≠ bytes_of_string "Origin not allowed"
  ∧ http.body (w s) = (bytes_of_string "Origin not allowed" ++ [x0a])%list.
Proof.
  split; [by vm_compute | split; [| by vm_compute]].
  vm_compute. intros H. discriminate H.
Qed.

(** C5, amended.  A request whose Origin header differs from the allowed
    origin is answered with status 403 and the body "Origin not allowed"
    followed by a line feed; the handler's calls are the Origin lookup,
    the log line and [http.Error] only: no Upgrade or key lookup, no
    accept computation, no hijack, no frame; the connection is never
    taken over, so nothing is written on it. *)
Theorem wsHandler_origin_rejected (hj : http.Hijacking) (r : http.Request) :
  http.HeaderGet (http.ReqHeader r) "Origin" ≠ "http://localhost:8080" →
  let s := serve hj r in
  http.Code (w s) = http.StatusForbidden
  ∧ http.body (w s) = (bytes_of_string "Origin not allowed" ++ [x0a])%list
  ∧ calls s =
    [Call_Header_Get "Origin";
     Call_log ["Origin not allowed: "; http.HeaderGet (http.ReqHeader r) "Origin"];
     Call_http_Error "Origin not allowed" http.StatusForbidden]
  ∧ conn s = None
  ∧ http.hijacking (w s) = hj.
Proof.
  intros Horigin. unfold serve, wsHandler.
  cbv [bind Header_Get call ret].
  rewrite bool_decide_eq_true_2 by done.
  repeat split.
Qed.

Lemma wsHandler_origin_rejected_witness :
  let s := serve (http.Hijackable io.bytes_Buffer)
             (NewRequest [("Origin", "http://example.com");
                          ("Upgrade", "websocket");
                          ("Sec-WebSocket-Key", "dGhlIHNhbXBsZSBub25jZQ==")]) in
  http.Code (w s) = http.StatusForbidden
  ∧ http.body (w s) = (bytes_of_string "Origin not allowed" ++ [x0a])%list
  ∧ calls s =
    [Call_Header_Get "Origin";
     Call_log ["Origin not allowed: "; "http://example.com"];
     Call_http_Error "Origin not allowed" http.StatusForbidden]
  ∧ conn s = None
  ∧ http.hijacking (w s) = http.Hijackable io.bytes_Buffer.
Proof.
  apply (wsHandler_origin_rejected (http.Hijackable io.bytes_Buffer)
           (NewRequest [("Origin", "http://example.com");
                        ("Upgrade", "websocket");
                        ("Sec-WebSocket-Key", "dGhlIHNhbXBsZSBub25jZQ==")])).
  vm_compute. intros H. discriminate H.
Defined.

(** The handler on a request that passes the three checks, up to the
    point where it asks for the connection. *)
Lemma wsHandler_upgrade (hj : http.Hijacking) (r : http.Request) (key : string) :
  http.HeaderGet (http.ReqHeader r) "Origin" = "http://localhost:8080" →
  http.HeaderGet (http.ReqHeader r) "Upgrade" = "websocket" →
  http.HeaderGet (http.ReqHeader r) "Sec-WebSocket-Key" = key →
  key ≠ EmptyString →
  serve hj r =
  let s := {| w := switching_protocols hj (computeAcceptKey key);
              conn := None;
              calls := (upgrade_calls key ++ [Call_Hijacker])%list |} in
  match hj with
  | http.NotHijacker =>
      (http_Error "Hijacking not supported" http.StatusInternalServerError s).2
  | http.HijackFails err =>
      (http_Error ("Could not hijack connection: " ++ error_Error err)
         http.StatusInternalServerError
         {| w := w s; conn := None; calls := (calls s ++ [Call_Hijack])%list |}).2
  | http.Hijackable c =>
      let message := "Hello World" in
      let '(err, rw') := sendTextMessage (bufio.NewWriter c) message in
      {| w := w s;
         conn := Some {| sink := bufio.wr rw'; closed := true |};
         calls :=
           (calls s
            ++ [Call_Hijack; Call_sendTextMessage message;
                Call_log match err with
                         | Some e => ["Error sending message:"; error_Error e]
                         | None => ["Sent:"; message]
                         end;
                Call_conn_Close])%list |}
  end.
Proof.
  intros HO HU HK Hkey. unfold serve, wsHandler.
  cbv [bind Header_Get do_computeAcceptKey call ret w conn calls app].
  rewrite HO, HU, HK.
  rewrite (bool_decide_eq_false_2 (key = EmptyString)) by done.
  rewrite (bool_decide_eq_false_2 ("http://localhost:8080" ≠ "http://localhost:8080"))
    by (intros H; by apply H).
  rewrite (bool_decide_eq_false_2 ("websocket" ≠ "websocket"))
    by (intros H; by apply H).
  cbv [bind Header_Set WriteHeader on_w call ret w conn calls app
       Hijacker Hijack http.hijacking http.NewResponseWriter http.setHeader
       http.WriteHeader http.committed http.header http.body].
  destruct hj as [| e | c]; cbv [negb bind]; [reflexivity | reflexivity |].
  cbv [do_sendTextMessage bind call set_conn ret w conn calls app].
  destruct (sendTextMessage (bufio.NewWriter c) "Hello World") as [err rw'].
  destruct err; reflexivity.
Qed.

Lemma upgrade_headers_lookup (accept : string) :
  http.HeaderGet (upgrade_headers accept) "Upgrade" = "websocket"
  ∧ http.HeaderGet (upgrade_headers accept) "Connection" = "Upgrade"
  ∧ http.HeaderGet (upgrade_headers accept) "Sec-WebSocket-Accept" = accept.
Proof.
  unfold http.HeaderGet, upgrade_headers, http.HeaderSet.
  change (http.CanonicalMIMEHeaderKey "Upgrade") with "Upgrade".
  change (http.CanonicalMIMEHeaderKey "Connection") with "Connection".
  change (http.CanonicalMIMEHeaderKey "Sec-WebSocket-Accept")
    with "Sec-Websocket-Accept".
  split; [| split].
  - rewrite !lookup_insert_ne by done. by rewrite lookup_insert_eq.
  - rewrite lookup_insert_ne by done. by rewrite lookup_insert_eq.
  - by rewrite lookup_insert_eq.
Qed.

(** Once the status is committed, [http.Error] cannot change it. *)
Lemma http_Error_committed (msg : string) (code : nat) (rw : http.ResponseWriter)
    (c : nat * http.Header) :
  http.committed rw = Some c →
  http.committed (http.Error msg code rw) = Some c.
Proof.
  intros Hc. destruct rw as [h cm b hj]. cbn [http.committed] in Hc.
  subst cm. reflexivity.
Qed.

(** C6. A request with the allowed origin, [Upgrade: websocket] and a
    non-empty key is answered with status 101 and the headers
    [Upgrade: websocket], [Connection: Upgrade] and [Sec-WebSocket-Accept]
    set to [computeAcceptKey] of the key, whatever the transport.  On a
    transport that hands over a connection accepting writes, the handler
    then sends one text message: the connection receives exactly the
    frame of "Hello World", which [readTextMessage] decodes to
    "Hello World". *)
Theorem wsHandler_success (r : http.Request) (key : string) :
  http.HeaderGet (http.ReqHeader r) "Origin" = "http://localhost:8080" →
  http.HeaderGet (http.ReqHeader r) "Upgrade" = "websocket" →
  http.HeaderGet (http.ReqHeader r) "Sec-WebSocket-Key" = key →
  key ≠ EmptyString →
  (∀ hj : http.Hijacking,
     ∃ h, http.committed (w (serve hj r))
          = Some (http.StatusSwitchingProtocols, h)
          ∧ http.HeaderGet h "Upgrade" = "websocket"
          ∧ http.HeaderGet h "Connection" = "Upgrade"
          ∧ http.HeaderGet h "Sec-WebSocket-Accept" = computeAcceptKey key)
  ∧ (∀ c : io.Sink,
       io.broken c = None →
       let s := serve (http.Hijackable c) r in
       conn s = Some {| sink := {| io.out := io.out c ++ text_frame "Hello World";
                                   io.broken := None |};
                        closed := true |}
       ∧ calls s =
         (upgrade_calls key
          ++ [Call_Hijacker; Call_Hijack;
              Call_sendTextMessage "Hello World";
              Call_log ["Sent:"; "Hello World"]; Call_conn_Close])%list)
  ∧ text_frame "Hello World"
    = [x81; x0b; "H"; "e"; "l"; "l"; "o"; " "; "W"; "o"; "r"; "l"; "d"]%byte
  ∧ (readTextMessage (stream_of (text_frame "Hello World"))).1
    = ("Hello World", None).
Proof.
  intros HO HU HK Hkey.
  split; [| split; [| by vm_compute]].
  - intros hj. exists (upgrade_headers (computeAcceptKey key)).
    split; [| apply upgrade_headers_lookup].
    rewrite (wsHandler_upgrade hj r key HO HU HK Hkey).
    destruct hj as [| e | c]; cbv zeta.
    + unfold http_Error. cbv [bind call on_w snd w].
      by apply http_Error_committed.
    + unfold http_Error. cbv [bind call on_w snd w].
      by apply http_Error_committed.
    + by destruct (sendTextMessage _ _).
  - intros c Hc s. subst s.
    rewrite (wsHandler_upgrade _ r key HO HU HK Hkey). cbv zeta.
    rewrite sendTextMessage_NewWriter; [| done | vm_compute; lia].
    split; reflexivity.
Qed.

Lemma wsHandler_success_witness :
  let r := NewRequest [("Origin", "http://localhost:8080");
                       ("Upgrade", "websocket");
                       ("Sec-WebSocket-Key", "dGhlIHNhbXBsZSBub25jZQ==");
                       ("Sec-WebSocket-Version", "13")] in
  let key := "dGhlIHNhbXBsZSBub25jZQ==" in
  (∀ hj : http.Hijacking,
     ∃ h, http.committed (w (serve hj r))
          = Some (http.StatusSwitchingProtocols, h)
          ∧ http.HeaderGet h "Upgrade" = "websocket"
          ∧ http.HeaderGet h "Connection" = "Upgrade"
          ∧ http.HeaderGet h "Sec-WebSocket-Accept" = computeAcceptKey key)
  ∧ (∀ c : io.Sink,
       io.broken c = None →
       let s := serve (http.Hijackable c) r in
       conn s = Some {| sink := {| io.out := io.out c ++ text_frame "Hello World";
                                   io.broken := None |};
                        closed := true |}
       ∧ calls s =
         (upgrade_calls key
          ++ [Call_Hijacker; Call_Hijack;
              Call_sendTextMessage "Hello World";
              Call_log ["Sent:"; "Hello World"]; Call_conn_Close])%list)
  ∧ text_frame "Hello World"
    = [x81; x0b; "H"; "e"; "l"; "l"; "o"; " "; "W"; "o"; "r"; "l"; "d"]%byte
  ∧ (readTextMessage (stream_of (text_frame "Hello World"))).1
    = ("Hello World", None).
Proof.
  intros r key. apply (wsHandler_success r key).
  - reflexivity.
  - reflexivity.
  - reflexivity.
  - discriminate.
Defined.

(** Without a connection the response of a valid request keeps status
    101 and nothing is sent. *)
Lemma wsHandler_no_takeover (hj : http.Hijacking) (r : http.Request)
    (key : string) :
  http.HeaderGet (http.ReqHeader r) "Origin" = "http://localhost:8080" →
  http.HeaderGet (http.ReqHeader r) "Upgrade" = "websocket" →
  http.HeaderGet (http.ReqHeader r) "Sec-WebSocket-Key" = key →
  key ≠ EmptyString →
  (∀ c, hj ≠ http.Hijackable c) →
  http.Code (w (serve hj r)) = http.StatusSwitchingProtocols
  ∧ conn (serve hj r) = None.
Proof.
  intros HO HU HK Hkey Hhj.
  rewrite (wsHandler_upgrade hj r key HO HU HK Hkey).
  destruct hj as [| e | c]; [by split | by split |].
  by destruct (Hhj c).
Qed.

(** C9. On a response writer that is not a hijacker, or whose [Hijack]
    fails, the handler calls [http.Error] with status 500 after it has
    committed status 101: the response keeps status 101.  No frame is
    written. *)
Theorem wsHandler_hijack_failure_status :
  let r := NewRequest [("Origin", "http://localhost:8080");
                       ("Upgrade", "websocket");
                       ("Sec-WebSocket-Key", "dGhlIHNhbXBsZSBub25jZQ==")] in
  let s := serve http.NotHijacker r in
  let s' := serve (http.HijackFails (transport_error "connection hijacked")) r in
  http.Code (w s) = http.StatusSwitchingProtocols
  ∧ last (calls s)
    = Some (Call_http_Error "Hijacking not supported"
              http.StatusInternalServerError)
  ∧ conn s = None
  ∧ http.Code (w s') = http.StatusSwitchingProtocols
  ∧ last (calls s')
    = Some (Call_http_Error "Could not hijack connection: connection hijacked"
              http.StatusInternalServerError)
  ∧ conn s' = None.
Proof. by vm_compute. Qed.

(** * Further properties *)

(** ** The handler: the remaining paths *)

Lemma serve_origin_mismatch (hj : http.Hijacking) (r : http.Request) :
  http.HeaderGet (http.ReqHeader r) "Origin" ≠ "http://localhost:8080" →
  serve hj r =
  rejected hj
    [Call_Header_Get "Origin";
     Call_log ["Origin not allowed: "; http.HeaderGet (http.ReqHeader r) "Origin"]]
    "Origin not allowed" http.StatusForbidden.
Proof.
  intros HO. unfold serve, wsHandler.
  cbv [bind Header_Get call ret].
  rewrite bool_decide_eq_true_2 by done. reflexivity.
Qed.

Lemma serve_upgrade_mismatch (hj : http.Hijacking) (r : http.Request) :
  http.HeaderGet (http.ReqHeader r) "Origin" = "http://localhost:8080" →
  http.HeaderGet (http.ReqHeader r) "Upgrade" ≠ "websocket" →
  serve hj r =
  rejected hj [Call_Header_Get "Origin"; Call_Header_Get "Upgrade"]
    "Not a valid WebSocket handshake" http.StatusBadRequest.
Proof.
  intros HO HU. unfold serve, wsHandler.
  cbv [bind Header_Get call ret]. rewrite HO.
  rewrite (bool_decide_eq_false_2 ("http://localhost:8080" ≠ "http://localhost:8080"))
    by (intros H; by apply H).
  rewrite bool_decide_eq_true_2 by done. reflexivity.
Qed.

Lemma serve_key_missing (hj : http.Hijacking) (r : http.Request) :
  http.HeaderGet (http.ReqHeader r) "Origin" = "http://localhost:8080" →
  http.HeaderGet (http.ReqHeader r) "Upgrade" = "websocket" →
  http.HeaderGet (http.ReqHeader r) "Sec-WebSocket-Key" = EmptyString →
  serve hj r =
  rejected hj
    [Call_Header_Get "Origin"; Call_Header_Get "Upgrade";
     Call_Header_Get "Sec-WebSocket-Key"]
    "Missing Sec-WebSocket-Key" http.StatusBadRequest.
Proof.
  intros HO HU HK. unfold serve, wsHandler.
  cbv [bind Header_Get call ret]. rewrite HO, HU, HK.
  rewrite (bool_decide_eq_false_2 ("http://localhost:8080" ≠ "http://localhost:8080"))
    by (intros H; by apply H).
  rewrite (bool_decide_eq_false_2 ("websocket" ≠ "websocket"))
    by (intros H; by apply H).
  reflexivity.
Qed.

Lemma rejected_facts (hj : http.Hijacking) (cs : list Call) (msg : string)
    (code : nat) :
  http.Code (w (rejected hj cs msg code)) = code
  ∧ http.body (w (rejected hj cs msg code))
    = bytes_of_string (msg ++ String "010" EmptyString)
  ∧ conn (rejected hj cs msg code) = None
  ∧ http.hijacking (w (rejected hj cs msg code)) = hj.
Proof. by repeat split. Qed.

(** X1. A request with the allowed origin whose Upgrade header is not
    exactly "websocket" (absent, or differing in case) is answered with
    status 400 and the line "Not a valid WebSocket handshake"; the key is
    not looked up, nothing is computed, and the connection is not taken
    over. *)
Theorem wsHandler_upgrade_rejected (hj : http.Hijacking) (r : http.Request) :
  http.HeaderGet (http.ReqHeader r) "Origin" = "http://localhost:8080" →
  http.HeaderGet (http.ReqHeader r) "Upgrade" ≠ "websocket" →
  let s := serve hj r in
  http.Code (w s) = http.StatusBadRequest
  ∧ http.body (w s)
    = (bytes_of_string "Not a valid WebSocket handshake" ++ [x0a])%list
  ∧ calls s =
    [Call_Header_Get "Origin"; Call_Header_Get "Upgrade";
     Call_http_Error "Not a valid WebSocket handshake" http.StatusBadRequest]
  ∧ conn s = None
  ∧ http.hijacking (w s) = hj.
Proof.
  intros HO HU s. subst s. rewrite serve_upgrade_mismatch by done.
  by repeat split.
Qed.

Lemma wsHandler_upgrade_rejected_witness :
  let s := serve (http.Hijackable io.bytes_Buffer)
             (NewRequest [("Origin", "http://localhost:8080");
                          ("Upgrade", "WebSocket");
                          ("Sec-WebSocket-Key", "dGhlIHNhbXBsZSBub25jZQ==")]) in
  http.Code (w s) = http.StatusBadRequest
  ∧ http.body (w s)
    = (bytes_of_string "Not a valid WebSocket handshake" ++ [x0a])%list
  ∧ calls s =
    [Call_Header_Get "Origin"; Call_Header_Get "Upgrade";
     Call_http_Error "Not a valid WebSocket handshake" http.StatusBadRequest]
  ∧ conn s = None
  ∧ http.hijacking (w s) = http.Hijackable io.bytes_Buffer.
Proof.
  apply (wsHandler_upgrade_rejected (http.Hijackable io.bytes_Buffer)
           (NewRequest [("Origin", "http://localhost:8080");
                        ("Upgrade", "WebSocket");
                        ("Sec-WebSocket-Key", "dGhlIHNhbXBsZSBub25jZQ==")])).
  - reflexivity.
  - vm_compute. intros H. discriminate H.
Defined.

(** X2. A request with the allowed origin and [Upgrade: websocket] whose
    Sec-WebSocket-Key header is absent or empty is answered with status
    400 and the line "Missing Sec-WebSocket-Key"; no accept key is
    computed, no response header is set by the handler itself, and the
    connection is not taken over. *)
Theorem wsHandler_key_missing (hj : http.Hijacking) (r : http.Request) :
  http.HeaderGet (http.ReqHeader r) "Origin" = "http://localhost:8080" →
  http.HeaderGet (http.ReqHeader r) "Upgrade" = "websocket" →
  http.HeaderGet (http.ReqHeader r) "Sec-WebSocket-Key" = EmptyString →
  let s := serve hj r in
  http.Code (w s) = http.StatusBadRequest
  ∧ http.body (w s) = (bytes_of_string "Missing Sec-WebSocket-Key" ++ [x0a])%list
  ∧ calls s =
    [Call_Header_Get "Origin"; Call_Header_Get "Upgrade";
     Call_Header_Get "Sec-WebSocket-Key";
     Call_http_Error "Missing Sec-WebSocket-Key" http.StatusBadRequest]
  ∧ conn s = None
  ∧ http.hijacking (w s) = hj.
Proof.
  intros HO HU HK s. subst s. rewrite serve_key_missing by done.
  by repeat split.
Qed.

Lemma wsHandler_key_missing_witness :
  let s := serve http.NotHijacker
             (NewRequest [("Origin", "http://localhost:8080");
                          ("Upgrade", "websocket")]) in
  http.Code (w s) = http.StatusBadRequest
  ∧ http.body (w s) = (bytes_of_string "Missing Sec-WebSocket-Key" ++ [x0a])%list
  ∧ calls s =
    [Call_Header_Get "Origin"; Call_Header_Get "Upgrade";
     Call_Header_Get "Sec-WebSocket-Key";
     Call_http_Error "Missing Sec-WebSocket-Key" http.StatusBadRequest]
  ∧ conn s = None
  ∧ http.hijacking (w s) = http.NotHijacker.
Proof.
  apply (wsHandler_key_missing http.NotHijacker
           (NewRequest [("Origin", "http://localhost:8080");
                        ("Upgrade", "websocket")])); reflexivity.
Defined.

(** The handler's outcome by cases on the three checks. *)
Lemma serve_cases (hj : http.Hijacking) (r : http.Request) :
  (http.HeaderGet (http.ReqHeader r) "Origin" ≠ "http://localhost:8080"
   ∧ ∃ cs, serve hj r = rejected hj cs "Origin not allowed" http.StatusForbidden
           ∧ ∀ m, Call_sendTextMessage m ∉ cs)
  ∨ (http.HeaderGet (http.ReqHeader r) "Origin" = "http://localhost:8080"
     ∧ (http.HeaderGet (http.ReqHeader r) "Upgrade" ≠ "websocket"
        ∨ http.HeaderGet (http.ReqHeader r) "Sec-WebSocket-Key" = EmptyString)
     ∧ ∃ cs msg, serve hj r = rejected hj cs msg http.StatusBadRequest
                 ∧ ∀ m, Call_sendTextMessage m ∉ cs)
  ∨ passes_checks r.
Proof.
  destruct (decide (http.HeaderGet (http.ReqHeader r) "Origin"
                    = "http://localhost:8080")) as [HO|HO]; last first.
  { left. split; [done|]. eexists. split; [by apply serve_origin_mismatch|].
    intros m Hin. apply list_elem_of_In in Hin. simpl in Hin.
    intuition discriminate. }
  right.
  destruct (decide (http.HeaderGet (http.ReqHeader r) "Upgrade" = "websocket"))
    as [HU|HU]; last first.
  { left. split; [done|]. split; [by left|]. eexists _, _.
    split; [by apply serve_upgrade_mismatch|].
    intros m Hin. apply list_elem_of_In in Hin. simpl in Hin.
    intuition discriminate. }
  destruct (decide (http.HeaderGet (http.ReqHeader r) "Sec-WebSocket-Key"
                    = EmptyString)) as [HK|HK].
  { left. split; [done|]. split; [by right|]. eexists _, _.
    split; [by apply serve_key_missing|].
    intros m Hin. apply list_elem_of_In in Hin. simpl in Hin.
    intuition discriminate. }
  right. by repeat split.
Qed.

(** X3. Whatever the request and the transport, the response carries
    status 403, 400 or 101: 403 exactly when the origin is not the allowed
    one, 101 exactly when the three checks pass, 400 otherwise.  In
    particular no response ever carries status 500 or 200. *)
Theorem wsHandler_status (hj : http.Hijacking) (r : http.Request) :
  let code := http.Code (w (serve hj r)) in
  (code = http.StatusForbidden
   ↔ http.HeaderGet (http.ReqHeader r) "Origin" ≠ "http://localhost:8080")
  ∧ (code = http.StatusSwitchingProtocols ↔ passes_checks r)
  ∧ (code = http.StatusForbidden ∨ code = http.StatusBadRequest
     ∨ code = http.StatusSwitchingProtocols).
Proof.
  intros code. subst code.
  destruct (serve_cases hj r)
    as [(HO & cs & -> & _) | [(HO & Hbad & cs & msg & -> & _) | Hpass]].
  - destruct (rejected_facts hj cs "Origin not allowed" http.StatusForbidden)
      as (-> & _).
    unfold passes_checks. intuition (try discriminate; try done).
  - destruct (rejected_facts hj cs msg http.StatusBadRequest) as (-> & _).
    unfold passes_checks. intuition (try discriminate; try done).
  - pose proof Hpass as (HO & HU & HK).
    assert (http.Code (w (serve hj r)) = http.StatusSwitchingProtocols) as ->.
    { rewrite (wsHandler_upgrade hj r _ HO HU eq_refl HK).
      destruct hj as [| e | c]; cbv zeta; try reflexivity.
      by destruct (sendTextMessage _ _). }
    unfold passes_checks in *. intuition (try discriminate; try done).
Qed.

(** ** sendTextMessage on a failing writer *)

Lemma sendTextMessage_unfold (w0 : bufio.Writer) (message : string) :
  (len message ≤ 125)%nat →
  sendTextMessage w0 message =
  let '((_, err), w1) := bufio.Write (text_frame message) w0 in
  match err with
  | Some e => (Some e, w1)
  | None => bufio.Flush w1
  end.
Proof.
  intros Hlen. unfold sendTextMessage.
  by replace (125 <? len message)%nat with false
    by (symmetry; apply Nat.ltb_ge; lia).
Qed.

Lemma Write_pending (p : bytes) (b : bufio.Writer) (e : error) :
  bufio.werr b = Some e → bufio.Write p b = ((0%nat, Some e), b).
Proof.
  intros He. unfold bufio.Write.
  replace (2 * length p + 2)%nat with (S (2 * length p + 1)) by lia.
  rewrite Write_loop_S, He.
  rewrite (bool_decide_eq_false_2 (Some e = None)) by done.
  rewrite andb_false_r. by rewrite He.
Qed.

Lemma Flush_broken (b : bufio.Writer) (e : error) :
  bufio.werr b = None → io.broken (bufio.wr b) = Some e → bufio.wbuf b ≠ [] →
  bufio.Flush b =
  (Some e, {| bufio.wbuf := bufio.wbuf b; bufio.werr := Some e;
              bufio.wsize := bufio.wsize b; bufio.wr := bufio.wr b |}).
Proof.
  intros He Hb Hbuf. unfold bufio.Flush, io.Write. rewrite He, Hb.
  destruct (bufio.wbuf b) as [|x l]; [done|]. reflexivity.
Qed.

Lemma Write_broken (p : bytes) (b : bufio.Writer) (e : error) :
  bufio.werr b = None → io.broken (bufio.wr b) = Some e → p ≠ [] →
  ∃ n err b', bufio.Write p b = ((n, err), b')
              ∧ bufio.wr b' = bufio.wr b
              ∧ (err = Some e
                 ∨ (err = None ∧ bufio.werr b' = None ∧ bufio.wbuf b' ≠ [])).
Proof.
  intros He Hb Hp. unfold bufio.Write.
  replace (2 * length p + 2)%nat with (S (S (2 * length p))) by lia.
  rewrite Write_loop_S, He, bool_decide_eq_true_2, andb_true_r by done.
  destruct (bufio.Available b <? length p)%nat eqn:Ha.
  - destruct (length (bufio.wbuf b) =? 0)%nat eqn:Hl.
    + unfold io.Write. rewrite Hb. cbv beta iota.
      rewrite Write_loop_S. cbn [bufio.werr].
      rewrite (bool_decide_eq_false_2 (Some e = None)), andb_false_r by done.
      cbn [bufio.werr]. eexists _, _, _. split; [done|]. split; [done | by left].
    + cbv zeta.
      rewrite (Flush_broken _ e); [| done | done |]; last first.
      { cbn [bufio.wbuf]. apply Nat.eqb_neq in Hl.
        destruct (bufio.wbuf b); [done | discriminate]. }
      rewrite Write_loop_S. cbn [bufio.werr].
      rewrite (bool_decide_eq_false_2 (Some e = None)), andb_false_r by done.
      cbn [bufio.werr]. eexists _, _, _. split; [done|]. split; [done | by left].
  - rewrite He. eexists _, _, _. split; [done|]. split; [done|]. right.
    repeat split. cbn [bufio.wbuf]. apply Nat.ltb_ge in Ha.
    rewrite Nat.min_r, firstn_all by done.
    destruct p; [done|]. by destruct (bufio.wbuf b).
Qed.

(** X4. On a writer with a pending error, or over a sink that rejects
    writes, [sendTextMessage] returns that error for every message of at
    most 125 bytes, and the sink receives nothing. *)
Theorem sendTextMessage_failure (w0 : bufio.Writer) (message : string)
    (e : error) :
  (len message ≤ 125)%nat →
  bufio.werr w0 = Some e
  ∨ (bufio.werr w0 = None ∧ io.broken (bufio.wr w0) = Some e) →
  ∃ w1, sendTextMessage w0 message = (Some e, w1)
        ∧ bufio.wr w1 = bufio.wr w0.
Proof.
  intros Hlen Hfail. rewrite sendTextMessage_unfold by done.
  destruct Hfail as [He | [He Hb]].
  - rewrite (Write_pending _ _ _ He). by exists w0.
  - destruct (Write_broken (text_frame message) w0 e He Hb)
      as (n & err & w1 & -> & Hwr & [-> | (-> & He1 & Hbuf)]); [done | |].
    + by exists w1.
    + rewrite (Flush_broken _ e); [| done | by rewrite Hwr | done].
      eexists. split; [done|]. by cbn [bufio.wr].
Qed.

Lemma sendTextMessage_failure_witness :
  ∃ w1, sendTextMessage
          (bufio.NewWriter {| io.out := []; io.broken := Some (transport_error "broken pipe") |})
          "Hello World"
        = (Some (transport_error "broken pipe"), w1)
        ∧ bufio.wr w1
          = bufio.wr
              (bufio.NewWriter
                 {| io.out := []; io.broken := Some (transport_error "broken pipe") |}).
Proof.
  apply (sendTextMessage_failure
           (bufio.NewWriter
              {| io.out := []; io.broken := Some (transport_error "broken pipe") |})
           "Hello World" (transport_error "broken pipe")).
  - vm_compute. lia.
  - right. split; reflexivity.
Defined.

(** ** The handler and its connection *)

(** X5. When the three checks pass and the transport hands over a
    connection that rejects writes, the handler logs the send error,
    closes the connection and returns: status 101 stays committed and
    nothing has been written to the connection. *)
Theorem wsHandler_send_failure (r : http.Request) (c : io.Sink) (e : error) :
  passes_checks r → io.broken c = Some e →
  let s := serve (http.Hijackable c) r in
  http.Code (w s) = http.StatusSwitchingProtocols
  ∧ conn s = Some {| sink := c; closed := true |}
  ∧ calls s =
    (upgrade_calls (http.HeaderGet (http.ReqHeader r) "Sec-WebSocket-Key")
     ++ [Call_Hijacker; Call_Hijack; Call_sendTextMessage "Hello World";
         Call_log ["Error sending message:"; error_Error e];
         Call_conn_Close])%list.
Proof.
  intros (HO & HU & HK) Hc s. subst s.
  rewrite (wsHandler_upgrade _ r _ HO HU eq_refl HK). cbv zeta.
  assert (∃ w1, sendTextMessage (bufio.NewWriter c) "Hello World" = (Some e, w1)
                ∧ bufio.wr w1 = c) as (w1 & -> & Hwr).
  { rewrite sendTextMessage_unfold by (vm_compute; lia).
    destruct (Write_broken (text_frame "Hello World") (bufio.NewWriter c) e
                eq_refl Hc)
      as (n & err & w1 & -> & Hwr & [-> | (-> & He1 & Hbuf)]); [done | |].
    - by exists w1.
    - rewrite (Flush_broken _ e); [| done | by rewrite Hwr | done].
      eexists. split; [done|]. by cbn [bufio.wr]. }
  rewrite Hwr. cbn [bufio.wr bufio.NewWriter]. by repeat split.
Qed.

Lemma wsHandler_send_failure_witness :
  let r := NewRequest [("Origin", "http://localhost:8080");
                       ("Upgrade", "websocket");
                       ("Sec-WebSocket-Key", "dGhlIHNhbXBsZSBub25jZQ==")] in
  let c := {| io.out := []; io.broken := Some io_EOF |} in
  let s := serve (http.Hijackable c) r in
  http.Code (w s) = http.StatusSwitchingProtocols
  ∧ conn s = Some {| sink := c; closed := true |}
  ∧ calls s =
    (upgrade_calls (http.HeaderGet (http.ReqHeader r) "Sec-WebSocket-Key")
     ++ [Call_Hijacker; Call_Hijack; Call_sendTextMessage "Hello World";
         Call_log ["Error sending message:"; error_Error io_EOF];
         Call_conn_Close])%list.
Proof.
  intros r c.
  apply (wsHandler_send_failure r c io_EOF).
  - repeat split. vm_compute. intros H. discriminate H.
  - reflexivity.
Defined.

Lemma rejected_no_frame (hj : http.Hijacking) (cs : list Call) (msg : string)
    (code : nat) (m : string) :
  (∀ m', Call_sendTextMessage m' ∉ cs) →
  Call_sendTextMessage m ∉ calls (rejected hj cs msg code).
Proof.
  intros Hcs [Hin | Hin]%elem_of_app; [by apply Hcs in Hin|].
  apply list_elem_of_In in Hin. simpl in Hin. intuition discriminate.
Qed.

(** X6. The handler calls [sendTextMessage] exactly when the three checks
    pass and the transport hands over a connection, and then with the
    message "Hello World" only; the connection is taken over in exactly
    these cases, and whenever it was taken over it is closed when the
    handler returns. *)
Theorem wsHandler_frame_attempt (hj : http.Hijacking) (r : http.Request) :
  let s := serve hj r in
  (Call_sendTextMessage "Hello World" ∈ calls s
   ↔ passes_checks r ∧ ∃ c, hj = http.Hijackable c)
  ∧ (∀ m, Call_sendTextMessage m ∈ calls s → m = "Hello World")
  ∧ (is_Some (conn s) ↔ passes_checks r ∧ ∃ c, hj = http.Hijackable c)
  ∧ (∀ c', conn s = Some c' → closed c' = true).
Proof.
  intros s. subst s.
  assert (∀ cs msg code,
            ¬ passes_checks r → (∀ m, Call_sendTextMessage m ∉ cs) →
            let s := rejected hj cs msg code in
            (Call_sendTextMessage "Hello World" ∈ calls s
             ↔ passes_checks r ∧ ∃ c, hj = http.Hijackable c)
            ∧ (∀ m, Call_sendTextMessage m ∈ calls s → m = "Hello World")
            ∧ (is_Some (conn s) ↔ passes_checks r ∧ ∃ c, hj = http.Hijackable c)
            ∧ (∀ c', conn s = Some c' → closed c' = true)) as Hrej.
  { intros cs msg code Hnp Hcs s.
    split; [| split; [| split]].
    - split; [| by intros [? _]].
      intros Hin. by apply rejected_no_frame in Hin.
    - intros m Hin. by apply rejected_no_frame in Hin.
    - split; [by intros [? [=]] | by intros [? _]].
    - intros c' [=]. }
  destruct (serve_cases hj r)
    as [(HO & cs & -> & Hcs) | [(HO & Hbad & cs & msg & -> & Hcs) | Hpass]].
  - apply Hrej; [| done]. by intros (? & _).
  - apply Hrej; [| done]. intros (_ & ? & ?). by destruct Hbad.
  - pose proof Hpass as (HO & HU & HK).
    rewrite (wsHandler_upgrade hj r _ HO HU eq_refl HK).
    assert (∀ msg code (cs : list Call),
              (∀ m, Call_sendTextMessage m ∉ cs) →
              ∀ m, Call_sendTextMessage m
                   ∉ (upgrade_calls
                        (http.HeaderGet (http.ReqHeader r) "Sec-WebSocket-Key")
                      ++ [Call_Hijacker] ++ cs
                      ++ [Call_http_Error msg code])%list) as Hnone.
    { intros msg code cs Hcs m Hin. apply list_elem_of_In in Hin.
      unfold upgrade_calls in Hin. rewrite !in_app_iff in Hin.
      cbn [In] in Hin.
      destruct Hin as [Hin | [Hin | [Hin | Hin]]];
        [intuition discriminate | intuition discriminate
         | by apply list_elem_of_In, Hcs in Hin | intuition discriminate]. }
    destruct hj as [| e | c]; cbv zeta.
    + unfold http_Error. cbv [bind call on_w snd w conn calls].
      split; [| split; [| split]].
      * split; [| by intros (_ & c & [=])].
        intros Hin. exfalso.
        apply (Hnone "Hijacking not supported" http.StatusInternalServerError
                 [] (λ m, not_elem_of_nil _) "Hello World").
        by rewrite <- !app_assoc in Hin.
      * intros m Hin. exfalso.
        apply (Hnone "Hijacking not supported" http.StatusInternalServerError
                 [] (λ m, not_elem_of_nil _) m).
        by rewrite <- !app_assoc in Hin.
      * split; [by intros [? [=]] | by intros (_ & c & [=])].
      * intros c' [=].
    + unfold http_Error. cbv [bind call on_w snd w conn calls].
      assert (∀ m, Call_sendTextMessage m ∉ [Call_Hijack]) as Hh.
      { intros m Hin. apply list_elem_of_In in Hin. simpl in Hin.
        intuition discriminate. }
      split; [| split; [| split]].
      * split; [| by intros (_ & c & [=])].
        intros Hin. exfalso.
        rewrite <- !app_assoc in Hin.
        by eapply (Hnone _ _ [Call_Hijack] Hh).
      * intros m Hin. exfalso.
        rewrite <- !app_assoc in Hin.
        by eapply (Hnone _ _ [Call_Hijack] Hh).
      * split; [by intros [? [=]] | by intros (_ & c & [=])].
      * intros c' [=].
    + destruct (sendTextMessage _ _) as [err rw']. cbn [calls conn].
      split; [| split; [| split]].
      * split; [by eauto|]. intros _. apply list_elem_of_In.
        rewrite !in_app_iff. cbn [In]. tauto.
      * intros m Hin. apply list_elem_of_In in Hin.
        unfold upgrade_calls in Hin. rewrite !in_app_iff in Hin.
        cbn [In] in Hin. intuition (try discriminate). congruence.
      * split; [by eauto | by eauto].
      * by intros c' [= <-].
Qed.

(** X7. The handler looks at three request headers only.  Two requests
    that agree on Origin, Upgrade and Sec-WebSocket-Key are handled
    identically, whatever their other headers (Connection,
    Sec-WebSocket-Version, Host) say. *)
Theorem wsHandler_reads_three_headers (hj : http.Hijacking)
    (r r' : http.Request) :
  http.HeaderGet (http.ReqHeader r) "Origin"
  = http.HeaderGet (http.ReqHeader r') "Origin" →
  http.HeaderGet (http.ReqHeader r) "Upgrade"
  = http.HeaderGet (http.ReqHeader r') "Upgrade" →
  http.HeaderGet (http.ReqHeader r) "Sec-WebSocket-Key"
  = http.HeaderGet (http.ReqHeader r') "Sec-WebSocket-Key" →
  serve hj r = serve hj r'.
Proof.
  intros HO HU HK. unfold serve, wsHandler.
  cbv [bind Header_Get call ret]. by rewrite HO, HU, HK.
Qed.

Lemma wsHandler_reads_three_headers_witness :
  serve (http.Hijackable io.bytes_Buffer)
    (NewRequest [("Origin", "http://localhost:8080");
                 ("Upgrade", "websocket");
                 ("Sec-WebSocket-Key", "dGhlIHNhbXBsZSBub25jZQ==");
                 ("Sec-WebSocket-Version", "13");
                 ("Connection", "Upgrade")])
  = serve (http.Hijackable io.bytes_Buffer)
      (NewRequest [("Origin", "http://localhost:8080");
                   ("Upgrade", "websocket");
                   ("Sec-WebSocket-Key", "dGhlIHNhbXBsZSBub25jZQ==");
                   ("Sec-WebSocket-Version", "8");
                   ("Connection", "close")]).
Proof.
  apply (wsHandler_reads_three_headers (http.Hijackable io.bytes_Buffer)
           (NewRequest [("Origin", "http://localhost:8080");
                        ("Upgrade", "websocket");
                        ("Sec-WebSocket-Key", "dGhlIHNhbXBsZSBub25jZQ==");
                        ("Sec-WebSocket-Version", "13");
                        ("Connection", "Upgrade")])
           (NewRequest [("Origin", "http://localhost:8080");
                        ("Upgrade", "websocket");
                        ("Sec-WebSocket-Key", "dGhlIHNhbXBsZSBub25jZQ==");
                        ("Sec-WebSocket-Version", "8");
                        ("Connection", "close")])); reflexivity.
Defined.

(** ** The decoder on arbitrary readers *)

Lemma length_string_of_bytes (l : bytes) : len (string_of_bytes l) = length l.
Proof.
  unfold len, string_of_bytes, string_of_list_byte.
  induction l as [|x l IH]; simpl; [done | by rewrite IH].
Qed.

Lemma bytes_of_string_of_bytes (l : bytes) :
  bytes_of_string (string_of_bytes l) = l.
Proof. apply list_byte_of_string_of_list_byte. Qed.

Lemma Read_length (p p' : bytes) (n : nat) (e : option error)
    (r r' : bufio.Reader) :
  bufio.Read p r = ((p', n, e), r') → length p' = length p.
Proof.
  assert (∀ src : bytes, length (copy p src).1 = length p) as Hcopy.
  { intros src. unfold copy. cbn [fst].
    rewrite length_app, length_take, length_drop. lia. }
  unfold bufio.Read, bufio.Buffered, bufio.readErr.
  destruct (length p =? 0)%nat.
  { destruct (0 <? length (bufio.rbuf r))%nat; by intros [= <- _ _ _]. }
  destruct (length (bufio.rbuf r) =? 0)%nat.
  - destruct (bufio.rerr r); [by intros [= <- _ _ _]|].
    destruct (bufio.rsize r <=? length p)%nat.
    + destruct (io.Read (length p) (bufio.rd r)) as [[data e'] src].
      specialize (Hcopy data). destruct (copy p data) as [q m].
      by intros [= <- _ _ _].
    + destruct (io.Read (bufio.rsize r) (bufio.rd r)) as [[data e'] src].
      cbn [bufio.rbuf]. destruct (length data =? 0)%nat.
      * by intros [= <- _ _ _].
      * specialize (Hcopy data). destruct (copy p data) as [q m].
        by intros [= <- _ _ _].
  - specialize (Hcopy (bufio.rbuf r)). destruct (copy p (bufio.rbuf r)) as [q m].
    by intros [= <- _ _ _].
Qed.

(** What every run of [readTextMessage] satisfies. *)
Lemma readTextMessage_bounds (r r' : bufio.Reader) (msg : string)
    (e : option error) :
  readTextMessage r = ((msg, e), r') →
  (remaining r' ≤ remaining r)%nat
  ∧ (remaining r ≤ remaining r' + 129)%nat
  ∧ (e = None →
     (len msg ≤ 127)%nat ∧ (remaining r ≤ remaining r' + 2 + len msg)%nat)
  ∧ (e ≠ None → msg = EmptyString).
Proof.
  unfold readTextMessage.
  destruct (bufio.Read (make 2) r) as [[[header n] err] r1] eqn:Hh.
  destruct (Read_remaining _ _ _ _ _ _ Hh) as [Hrem1 Hn1].
  rewrite make_length in Hn1.
  destruct err as [e1|].
  { intros [= <- <- <-]. repeat split; try lia; done. }
  destruct (negb (negb _)).
  { intros [= <- <- <-]. repeat split; try lia; done. }
  destruct (negb (_ =? _)%N).
  { intros [= <- <- <-]. repeat split; try lia; done. }
  destruct (negb (_ =? _)%N).
  { intros [= <- <- <-]. repeat split; try lia; done. }
  rewrite land_0x7F.
  set (k := N.to_nat (Byte.to_N (nth 1 header x00) mod 128)).
  assert (k ≤ 127)%nat as Hk.
  { subst k. pose proof (N.mod_upper_bound (Byte.to_N (nth 1 header x00)) 128).
    lia. }
  destruct (bufio.Read (make k) r1) as [[[payload n2] err2] r2] eqn:Hp.
  destruct (Read_remaining _ _ _ _ _ _ Hp) as [Hrem2 Hn2].
  pose proof (Read_length _ _ _ _ _ _ Hp) as Hlen.
  rewrite make_length in Hn2, Hlen.
  destruct err2 as [e2|]; intros [= <- <- <-].
  - repeat split; try lia; done.
  - rewrite length_string_of_bytes. repeat split; try lia; done.
Qed.

(** X8. A message returned without error is never longer than 127
    bytes, whatever the reader delivers; with an error the returned
    message is empty. *)
Theorem readTextMessage_message_length (r r' : bufio.Reader) (msg : string)
    (e : option error) :
  readTextMessage r = ((msg, e), r') →
  (e = None → (len msg ≤ 127)%nat) ∧ (e ≠ None → msg = EmptyString).
Proof.
  intros H.
  destruct (readTextMessage_bounds _ _ _ _ H) as (_ & _ & Hok & Herr).
  split; [| done]. intros He. by destruct (Hok He).
Qed.

Lemma readTextMessage_message_length_witness :
  (@None error = None → (len "Hello" ≤ 127)%nat)
  ∧ (@None error ≠ None → "Hello" = EmptyString).
Proof.
  apply (readTextMessage_message_length
           (stream_of [x81; x05; "H"; "e"; "l"; "l"; "o"]%byte)
           {| bufio.rbuf := []; bufio.rerr := None;
              bufio.rsize := bufio.defaultBufSize; bufio.rd := [] |}).
  reflexivity.
Defined.

(** X9. [readTextMessage] never takes more from its reader than one
    frame can hold: at most 129 bytes in all, and on success at most the
    2 header bytes plus the length of the message it returns.  Bytes of a
    following frame are left in the reader. *)
Theorem readTextMessage_consumption (r r' : bufio.Reader) (msg : string)
    (e : option error) :
  readTextMessage r = ((msg, e), r') →
  (remaining r' ≤ remaining r)%nat
  ∧ (remaining r - remaining r' ≤ 129)%nat
  ∧ (e = None → (remaining r - remaining r' ≤ 2 + len msg)%nat).
Proof.
  intros H.
  destruct (readTextMessage_bounds _ _ _ _ H) as (Hle & Hmax & Hok & _).
  split; [done|]. split; [lia|]. intros He. destruct (Hok He). lia.
Qed.

Lemma readTextMessage_consumption_witness :
  let r := stream_of [x81; x02; "h"; "i"; x81; x01; "!"]%byte in
  let r' := {| bufio.rbuf := [x81; x01; "!"]%byte; bufio.rerr := None;
               bufio.rsize := bufio.defaultBufSize; bufio.rd := [] |} in
  (remaining r' ≤ remaining r)%nat
  ∧ (remaining r - remaining r' ≤ 129)%nat
  ∧ (@None error = None → (remaining r - remaining r' ≤ 2 + len "hi")%nat).
Proof.
  intros r r'. apply (readTextMessage_consumption r r' "hi" None).
  reflexivity.
Defined.

(** X10. Of the first header byte the decoder looks at the FIN bit and
    the low four bits only: two buffered frames that differ in the three
    reserved bits of that byte are decoded alike. *)
Theorem readTextMessage_ignores_reserved_bits (b0 b0' : Byte.byte)
    (tl : bytes) (e : option error) (sz : nat) (src : io.Source) :
  N.testbit (Byte.to_N b0) 7 = N.testbit (Byte.to_N b0') 7 →
  (Byte.to_N b0 mod 16)%N = (Byte.to_N b0' mod 16)%N →
  readTextMessage {| bufio.rbuf := b0 :: tl; bufio.rerr := e;
                     bufio.rsize := sz; bufio.rd := src |}
  = readTextMessage {| bufio.rbuf := b0' :: tl; bufio.rerr := e;
                       bufio.rsize := sz; bufio.rd := src |}.
Proof.
  intros Hfin Hop.
  destruct tl as [|b1 tl].
  - rewrite (readTextMessage_after_header _ _ [b0; x00] 1)
      by (by rewrite Read_buffered).
    rewrite (readTextMessage_after_header _ _ [b0'; x00] 1)
      by (by rewrite Read_buffered).
    cbn [nth]. by rewrite Hfin, Hop.
  - rewrite (readTextMessage_after_header _ _ [b0; b1] 2)
      by (by rewrite Read_buffered).
    rewrite (readTextMessage_after_header _ _ [b0'; b1] 2)
      by (by rewrite Read_buffered).
    cbn [nth]. by rewrite Hfin, Hop.
Qed.

Lemma readTextMessage_ignores_reserved_bits_witness :
  readTextMessage {| bufio.rbuf := [xf1; x02; "h"; "i"]%byte; bufio.rerr := None;
                     bufio.rsize := 4096; bufio.rd := [] |}
  = readTextMessage {| bufio.rbuf := [x81; x02; "h"; "i"]%byte; bufio.rerr := None;
                       bufio.rsize := 4096; bufio.rd := [] |}.
Proof.
  apply (readTextMessage_ignores_reserved_bits xf1 x81); reflexivity.
Defined.

(** X11. A read error comes back as it is, with no message: on an empty
    buffer a pending error of the reader is returned and cleared without
    touching the stream, and a stream that has ended gives [io.EOF],
    whatever the size of the buffer. *)
Theorem readTextMessage_read_error (sz : nat) :
  (∀ (e : error) (src : io.Source),
     readTextMessage {| bufio.rbuf := []; bufio.rerr := Some e;
                        bufio.rsize := sz; bufio.rd := src |}
     = ((EmptyString, Some e),
        {| bufio.rbuf := []; bufio.rerr := None;
           bufio.rsize := sz; bufio.rd := src |}))
  ∧ readTextMessage {| bufio.rbuf := []; bufio.rerr := None;
                       bufio.rsize := sz; bufio.rd := [] |}
    = ((EmptyString, Some io_EOF),
       {| bufio.rbuf := []; bufio.rerr := None;
          bufio.rsize := sz; bufio.rd := [] |}).
Proof.
  split; [reflexivity|].
  unfold readTextMessage, bufio.Read.
  cbn [make repeat length Nat.eqb bufio.Buffered bufio.rbuf bufio.rerr
       bufio.rsize bufio.rd io.Read].
  by destruct (sz <=? 2)%nat.
Qed.

Lemma byte_of_int_to_N (b : Byte.byte) :
  byte_of_int (N.to_nat (Byte.to_N b)) = b.
Proof.
  unfold byte_of_int. rewrite N2Nat.id, N.mod_small.
  - by rewrite Byte.of_to_N.
  - pose proof (Byte.to_N_bounded b). lia.
Qed.

Lemma small_length_byte (b : Byte.byte) :
  (Byte.to_N b ≤ 125)%N →
  N.testbit (Byte.to_N b) 7 = false
  ∧ N.to_nat (Byte.to_N b mod 128) = N.to_nat (Byte.to_N b).
Proof.
  intros Hb. rewrite <- (byte_of_int_to_N b) at 1 2.
  destruct (length_byte_small (N.to_nat (Byte.to_N b))) as [H1 H2]; [lia|].
  by rewrite byte_of_int_to_N in *.
Qed.

(** X12. Decoding then encoding: in a reader with no read error pending,
    a buffered frame with first byte 0x81, a length byte of at most 125
    and that many payload bytes is decoded to a message which
    [sendTextMessage] encodes to the very same bytes. *)
Theorem decode_then_encode (r : bufio.Reader) (b1 : Byte.byte)
    (payload rest : bytes) :
  bufio.rbuf r = (x81 :: b1 :: payload ++ rest)%list →
  bufio.rerr r = None →
  (Byte.to_N b1 ≤ 125)%N →
  length payload = N.to_nat (Byte.to_N b1) →
  ∃ msg r' w1,
    readTextMessage r = ((msg, None), r')
    ∧ bufio.rbuf r' = rest
    ∧ sendTextMessage (bufio.NewWriter io.bytes_Buffer) msg = (None, w1)
    ∧ io.out (bufio.wr w1) = x81 :: b1 :: payload.
Proof.
  intros Hbuf Herr Hb1 Hlen.
  destruct (small_length_byte b1 Hb1) as [Hmask Hmod].
  destruct (sendTextMessage_healthy (bufio.NewWriter io.bytes_Buffer)
              (string_of_bytes payload))
    as (w1 & Hsend & _ & _ & _ & Hout); [done | |].
  { rewrite length_string_of_bytes. lia. }
  eexists _, _, w1. split; [| split; [| split; [exact Hsend|]]].
  - apply (decode_buffered_frame r x81 b1 payload rest); try done.
    by rewrite Hmod.
  - done.
  - rewrite Hout. unfold text_frame, accepted. cbn [app bufio.NewWriter
      bufio.wr bufio.wbuf io.out io.bytes_Buffer].
    by rewrite length_string_of_bytes, Hlen, byte_of_int_to_N,
      bytes_of_string_of_bytes.
Qed.

Lemma decode_then_encode_witness :
  ∃ msg r' w1,
    readTextMessage {| bufio.rbuf := [x81; x02; "h"; "i"; x81; x00]%byte;
                       bufio.rerr := None; bufio.rsize := 4096; bufio.rd := [] |}
    = ((msg, None), r')
    ∧ bufio.rbuf r' = [x81; x00]
    ∧ sendTextMessage (bufio.NewWriter io.bytes_Buffer) msg = (None, w1)
    ∧ io.out (bufio.wr w1) = [x81; x02; "h"; "i"]%byte.
Proof.
  apply (decode_then_encode
           {| bufio.rbuf := [x81; x02; "h"; "i"; x81; x00]%byte;
              bufio.rerr := None; bufio.rsize := 4096; bufio.rd := [] |}
           x02 ["h"; "i"]%byte [x81; x00]).
  - reflexivity.
  - reflexivity.
  - vm_compute. intros H. discriminate H.
  - reflexivity.
Defined.

(** X13. Frame boundaries: two messages of at most 125 bytes sent one
    after the other into an in-memory buffer are read back, in order, by
    two calls of [readTextMessage] on a stream holding the bytes written,
    and nothing is left over. *)
Theorem two_messages_in_sequence (m1 m2 : string) :
  (len m1 ≤ 125)%nat → (len m2 ≤ 125)%nat →
  ∃ w1 w2 r1 r2,
    sendTextMessage (bufio.NewWriter io.bytes_Buffer) m1 = (None, w1)
    ∧ sendTextMessage w1 m2 = (None, w2)
    ∧ readTextMessage (stream_of (io.out (bufio.wr w2))) = ((m1, None), r1)
    ∧ readTextMessage r1 = ((m2, None), r2)
    ∧ remaining r2 = 0%nat.
Proof.
  intros H1 H2.
  destruct (sendTextMessage_healthy (bufio.NewWriter io.bytes_Buffer) m1)
    as (w1 & Hs1 & Hh1 & Hb1 & _ & Ho1); [done | done |].
  destruct (sendTextMessage_healthy w1 m2)
    as (w2 & Hs2 & _ & _ & _ & Ho2); [done | done |].
  assert (io.out (bufio.wr w2) = (text_frame m1 ++ text_frame m2)%list) as Hout.
  { rewrite Ho2. unfold accepted. by rewrite Hb1, Ho1, app_nil_r. }
  pose proof (length_bytes_of_string m1) as Hl1.
  pose proof (length_bytes_of_string m2) as Hl2.
  destruct (length_byte_small (len m1) H1) as [Hbit1 Hn1].
  destruct (length_byte_small (len m2) H2) as [Hbit2 Hn2].
  set (c := (text_frame m1 ++ text_frame m2)%list) in *.
  assert (length c ≤ bufio.defaultBufSize)%nat as Hc.
  { subst c. unfold text_frame, bufio.defaultBufSize.
    rewrite !length_app. simpl. lia. }
  destruct (Read_fill (make 2) c [])
    as (data & s' & Hio & Hdata & Hread); [done | done | |].
  { unfold bufio.defaultBufSize. simpl. lia. }
  rewrite take_ge in Hdata by done. subst data.
  pose proof (io_Read_remaining _ _ _ _ _ Hio) as Hrem.
  simpl in Hrem. rewrite app_nil_r in Hrem.
  pose proof (decode_buffered_frame
                {| bufio.rbuf := c; bufio.rerr := None;
                   bufio.rsize := bufio.defaultBufSize; bufio.rd := s' |}
                x81 (byte_of_int (len m1)) (bytes_of_string m1) (text_frame m2))
    as Hd1.
  rewrite string_of_bytes_of_string in Hd1.
  pose proof (decode_buffered_frame
                {| bufio.rbuf := text_frame m2; bufio.rerr := None;
                   bufio.rsize := bufio.defaultBufSize; bufio.rd := s' |}
                x81 (byte_of_int (len m2)) (bytes_of_string m2) [])
    as Hd2.
  rewrite string_of_bytes_of_string in Hd2.
  exists w1, w2. eexists _, _. split; [done|]. split; [done|].
  split; [| split].
  - rewrite Hout. unfold stream_of.
    replace (io.bytes_NewReader c) with [c] by (by subst c).
    rewrite (readTextMessage_ext _ _ Hread).
    apply Hd1; try done. by rewrite Hn1.
  - apply Hd2; try done.
    + cbn [bufio.rbuf]. unfold text_frame. cbn [app]. by rewrite app_nil_r.
    + by rewrite Hn2.
  - unfold remaining. cbn [bufio.rbuf bufio.rd length]. lia.
Qed.

Lemma two_messages_in_sequence_witness :
  ∃ w1 w2 r1 r2,
    sendTextMessage (bufio.NewWriter io.bytes_Buffer) "Hello World" = (None, w1)
    ∧ sendTextMessage w1 EmptyString = (None, w2)
    ∧ readTextMessage (stream_of (io.out (bufio.wr w2)))
      = (("Hello World", None), r1)
    ∧ readTextMessage r1 = ((EmptyString, None), r2)
    ∧ remaining r2 = 0%nat.
Proof.
  apply (two_messages_in_sequence "Hello World" EmptyString);
    vm_compute; lia.
Defined.

(** X14. For every key the accept value has 28 characters and ends with
    one padding character. *)
Theorem computeAcceptKey_shape (k : string) :
  String.length (computeAcceptKey k) = 28%nat
  ∧ String.get 27 (computeAcceptKey k) = Some "="%char.
Proof.
  unfold computeAcceptKey, sha1.HashSum, base64.EncodeToString.
  cbn [app].
  pose proof (sha1_Sum_length (sha1.written
                (sha1.Write sha1.New (bytes_of_string (k ++ magicString)))))
    as Hlen.
  rewrite <- (length_map Byte.to_N) in Hlen.
  destruct (map Byte.to_N _) as [|a1 l]; [done|].
  do 19 (destruct l as [|? l]; [done|]).
  destruct l; [by split | done].
Qed.

(** ** Reading lines *)

Lemma IndexByte_found (l rest : bytes) (c : Byte.byte) :
  c ∉ l → IndexByte (l ++ c :: rest) c = Some (length l).
Proof.
  induction l as [|x l IH]; intros Hc; simpl.
  - by rewrite Byte.byte_dec_lb.
  - apply not_elem_of_cons in Hc as [Hne Hc].
    destruct (Byte.eqb x c) eqn:E; [by apply Byte.byte_dec_bl in E|].
    by rewrite IH.
Qed.

Lemma IndexByte_absent (l : bytes) (c : Byte.byte) :
  c ∉ l → IndexByte l c = None.
Proof.
  induction l as [|x l IH]; intros Hc; simpl; [done|].
  apply not_elem_of_cons in Hc as [Hne Hc].
  destruct (Byte.eqb x c) eqn:E; [by apply Byte.byte_dec_bl in E|].
  by rewrite IH.
Qed.

Lemma IndexByte_Some_lt (l : bytes) (c : Byte.byte) (i : nat) :
  IndexByte l c = Some i → (i < length l)%nat.
Proof.
  revert i. induction l as [|x l IH]; intros i; simpl; [done|].
  destruct (Byte.eqb x c); [intros [= <-]; lia|].
  destruct (IndexByte l c) as [j|]; [|done].
  intros [= <-]. specialize (IH j eq_refl). lia.
Qed.

Lemma io_Read_content (cap : nat) (s s' : io.Source) (data : bytes)
    (e : option error) :
  io.Read cap s = ((data, e), s') → concat s = (data ++ concat s')%list.
Proof.
  destruct s as [|c s]; simpl.
  - by intros [= <- <- <-].
  - destruct (length c <=? cap)%nat; intros [= <- <- <-]; simpl; [done|].
    by rewrite app_assoc, take_drop.
Qed.

(** A read with room for at least one byte either meets the end of the
    stream or makes the stream smaller. *)
Lemma io_Read_progress (cap : nat) (s s' : io.Source) (data : bytes)
    (e : option error) :
  (0 < cap)%nat → io.Read cap s = ((data, e), s') →
  (e = Some io_EOF ∧ data = [] ∧ s = [] ∧ s' = [])
  ∨ (e = None
     ∧ (length (concat s') + length s' < length (concat s) + length s)%nat).
Proof.
  intros Hcap. destruct s as [|c s]; simpl.
  - intros [= <- <- <-]. by left.
  - destruct (length c <=? cap)%nat eqn:Hc; intros [= <- <- <-]; right;
      (split; [done|]); simpl; rewrite !length_app.
    + lia.
    + apply Nat.leb_gt in Hc. rewrite length_drop. lia.
Qed.

Section line_reading.
Import bufio bufio_lines.

Lemma fill_loop_S (i : nat) (b : Reader) :
  fill_loop (S i) b =
  let '((data, e), src) := io.Read (rsize b - length (rbuf b)) (rd b) in
  let b := {| rbuf := (rbuf b ++ data)%list; rerr := rerr b;
              rsize := rsize b; rd := src |} in
  match e with
  | Some e => {| rbuf := rbuf b; rerr := Some e; rsize := rsize b; rd := rd b |}
  | None => if (0 <? length data)%nat then b else fill_loop i b
  end.
Proof. reflexivity. Qed.

Lemma fill_loop_spec (i : nat) :
  ∀ b : Reader,
    rerr b = None → (length (rbuf b) < rsize b)%nat →
    content (fill_loop i b) = content b
    ∧ rsize (fill_loop i b) = rsize b
    ∧ (is_Some (rerr (fill_loop i b))
       ∧ (length (concat (rd (fill_loop i b))) + length (rd (fill_loop i b))
          ≤ length (concat (rd b)) + length (rd b))%nat
       ∨ rerr (fill_loop i b) = None
         ∧ (length (concat (rd (fill_loop i b))) + length (rd (fill_loop i b))
            < length (concat (rd b)) + length (rd b))%nat).
Proof.
  induction i as [|i IH]; intros b He Hroom.
  - simpl. split; [done|]. split; [done|]. left. split; [by eexists | done].
  - rewrite fill_loop_S.
    destruct (io.Read (rsize b - length (rbuf b)) (rd b)) as [[data e] src] eqn:Hio.
    pose proof (io_Read_content _ _ _ _ _ Hio) as Hcont.
    assert (0 < rsize b - length (rbuf b))%nat as Hcap by lia.
    destruct (io_Read_progress _ _ _ _ _ Hcap Hio)
      as [(-> & -> & Hs & ->) | (-> & Hlt)].
    + cbn [rbuf rerr rsize rd]. unfold content. cbn [rbuf rd].
      rewrite Hs, app_nil_r. split; [done|]. split; [done|].
      left. split; [by eexists | done].
    + cbv zeta. destruct (0 <? length data)%nat eqn:Hd.
      * unfold content. cbn [rbuf rerr rsize rd].
        split; [by rewrite Hcont, app_assoc|]. split; [done|].
        right. by rewrite He.
      * apply Nat.ltb_ge in Hd.
        assert (data = []) as -> by (destruct data; [done | simpl in Hd; lia]).
        destruct (IH {| rbuf := rbuf b ++ []; rerr := rerr b;
                        rsize := rsize b; rd := src |})
          as (Hc & Hs & Hcases);
          [done | cbn [rbuf rsize]; rewrite app_nil_r; done |].
        cbn [rbuf rsize rd] in Hs, Hcases.
        split; [| split; [done|]].
        -- rewrite Hc. unfold content. cbn [rbuf rd].
           by rewrite Hcont, !app_nil_r.
        -- destruct Hcases as [[? ?] | [? ?]]; [left | right];
             (split; [done | lia]).
Qed.

Lemma fill_spec (b : Reader) :
  rerr b = None → (length (rbuf b) < rsize b)%nat →
  content (fill b) = content b
  ∧ rsize (fill b) = rsize b
  ∧ (is_Some (rerr (fill b))
     ∧ (length (concat (rd (fill b))) + length (rd (fill b))
        ≤ length (concat (rd b)) + length (rd b))%nat
     ∨ rerr (fill b) = None
       ∧ (length (concat (rd (fill b))) + length (rd (fill b))
          < length (concat (rd b)) + length (rd b))%nat).
Proof. apply fill_loop_spec. Qed.

Lemma fill_first_chunk (c : bytes) (s : io.Source) (sz : nat) :
  c ≠ [] → (length c ≤ sz)%nat →
  fill {| rbuf := []; rerr := None; rsize := sz; rd := c :: s |}
  = {| rbuf := c; rerr := None; rsize := sz; rd := s |}.
Proof.
  intros Hc Hlen. unfold fill.
  change maxConsecutiveEmptyReads with (S 99). rewrite fill_loop_S.
  cbn [rbuf rerr rsize rd length io.Read]. rewrite Nat.sub_0_r.
  replace (length c <=? sz)%nat with true by (symmetry; by apply Nat.leb_le).
  destruct c; [done|]. reflexivity.
Qed.

Lemma fill_at_end (l : bytes) (sz : nat) :
  (length l < sz)%nat →
  fill {| rbuf := l; rerr := None; rsize := sz; rd := [] |}
  = {| rbuf := l; rerr := Some io_EOF; rsize := sz; rd := [] |}.
Proof.
  intros Hlen. unfold fill.
  change maxConsecutiveEmptyReads with (S 99). rewrite fill_loop_S.
  cbn [rbuf rerr rsize rd io.Read]. by rewrite app_nil_r.
Qed.

Local Opaque fill.

Lemma ReadString_loop_S (fuel : nat) (delim : Byte.byte) (full : bytes)
    (b : Reader) :
  ReadString_loop (S fuel) delim full b =
  match IndexByte (rbuf b) delim with
  | Some i =>
      Some ((string_of_bytes (full ++ take (S i) (rbuf b)), None),
            {| rbuf := drop (S i) (rbuf b); rerr := rerr b;
               rsize := rsize b; rd := rd b |})
  | None =>
      match rerr b with
      | Some e =>
          Some ((string_of_bytes (full ++ rbuf b), Some e),
                {| rbuf := []; rerr := None; rsize := rsize b; rd := rd b |})
      | None =>
          if (rsize b <=? length (rbuf b))%nat then
            ReadString_loop fuel delim (full ++ rbuf b)%list
              {| rbuf := []; rerr := None; rsize := rsize b; rd := rd b |}
          else ReadString_loop fuel delim full (fill b)
      end
  end.
Proof. reflexivity. Qed.

(** With enough rounds the loop ends, and the line it returns is exactly
    what it has taken from the reader; a line returned without error is
    not empty. *)
Lemma ReadString_loop_spec (fuel : nat) (delim : Byte.byte) :
  ∀ (full : bytes) (b : Reader),
    (0 < rsize b)%nat → (needs b ≤ fuel)%nat →
    ∃ line e b',
      ReadString_loop fuel delim full b = Some ((line, e), b')
      ∧ (bytes_of_string line ++ content b' = full ++ content b)%list
      ∧ rsize b' = rsize b
      ∧ (e = None → (length full < len line)%nat).
Proof.
  induction fuel as [|fuel IH]; intros full b Hsz Hfuel.
  { unfold needs in Hfuel. destruct (rerr b); [lia|].
    destruct (rsize b <=? length (rbuf b))%nat; lia. }
  rewrite ReadString_loop_S.
  destruct (IndexByte (rbuf b) delim) as [i|] eqn:Hi.
  { apply IndexByte_Some_lt in Hi. eexists _, _, _. split; [done|].
    rewrite bytes_of_string_of_bytes, length_string_of_bytes.
    unfold content. cbn [rbuf rd rsize].
    repeat split.
    - by rewrite <- !app_assoc, (app_assoc (take _ _)), take_drop.
    - intros _. rewrite length_app, length_take. lia. }
  destruct (rerr b) as [e|] eqn:He.
  { eexists _, _, _. split; [done|]. rewrite bytes_of_string_of_bytes.
    unfold content. cbn [rbuf rd rsize]. repeat split; [|done].
    by rewrite <- app_assoc. }
  unfold needs in Hfuel. rewrite He in Hfuel.
  destruct (rsize b <=? length (rbuf b))%nat eqn:Hfull.
  - destruct (IH (full ++ rbuf b)%list
                {| rbuf := []; rerr := None; rsize := rsize b; rd := rd b |})
      as (line & e & b' & -> & Hcont & Hs & Hne);
      [done | unfold needs; cbn [rbuf rerr rsize rd length];
              replace (rsize b <=? 0)%nat with false
                by (symmetry; apply Nat.leb_gt; lia); lia |].
    exists line, e, b'. split; [done|]. split; [| split; [done|]].
    + rewrite Hcont. unfold content. cbn [rbuf rd app]. by rewrite <- app_assoc.
    + intros He'. specialize (Hne He'). rewrite length_app in Hne. lia.
  - apply Nat.leb_gt in Hfull.
    destruct (fill_spec b He Hfull) as (Hc & Hs & Hcases).
    destruct (IH full (fill b)) as (line & e & b' & -> & Hcont & Hs' & Hne).
    { by rewrite Hs. }
    { unfold needs. destruct Hcases as [[[e' ->] Hle] | [-> Hlt]]; [lia|].
      destruct (rsize (fill b) <=? length (rbuf (fill b)))%nat; lia. }
    exists line, e, b'. split; [done|]. split; [| split; [|done]].
    + by rewrite Hcont, Hc.
    + by rewrite Hs', Hs.
Qed.

Lemma needs_rounds (b : Reader) : (needs b ≤ enough b)%nat.
Proof.
  unfold needs, enough. destruct (rerr b); [lia|].
  destruct (rsize b <=? length (rbuf b))%nat; lia.
Qed.

Lemma ReadString_spec (delim : Byte.byte) (b : Reader) :
  (0 < rsize b)%nat →
  ∃ line e b',
    ReadString delim b = Some ((line, e), b')
    ∧ (bytes_of_string line ++ content b' = content b)%list
    ∧ rsize b' = rsize b
    ∧ (e = None → line ≠ EmptyString).
Proof.
  intros Hsz.
  destruct (ReadString_loop_spec (enough b) delim [] b Hsz (needs_rounds b))
    as (line & e & b' & H & Hcont & Hs & Hne).
  exists line, e, b'. repeat split; try done.
  intros He ->. specialize (Hne He). simpl in Hne. lia.
Qed.

Lemma rounds_S (b : Reader) : ∃ k, enough b = S (S (S k)).
Proof.
  unfold enough.
  exists (2 * (length (concat (rd b)) + length (rd b)) + 2)%nat. lia.
Qed.

(** A line that is already in the buffer. *)
Lemma ReadString_buffered (delim : Byte.byte) (line rest : bytes) (b : Reader) :
  rbuf b = (line ++ delim :: rest)%list → delim ∉ line →
  ReadString delim b =
  Some ((string_of_bytes (line ++ [delim]), None),
        {| rbuf := rest; rerr := rerr b; rsize := rsize b; rd := rd b |}).
Proof.
  intros Hbuf Hline. unfold ReadString.
  destruct (rounds_S b) as [k ->].
  rewrite ReadString_loop_S, Hbuf, IndexByte_found by done.
  cbn [app].
  replace (line ++ delim :: rest)%list with ((line ++ [delim]) ++ rest)%list
    by (by rewrite <- app_assoc).
  rewrite take_app_length', drop_app_length'
    by (rewrite length_app; simpl; lia).
  reflexivity.
Qed.

(** The first line of a chunk that a fresh reader takes whole. *)
Lemma ReadString_first_chunk (delim : Byte.byte) (line rest : bytes)
    (s : io.Source) (sz : nat) :
  delim ∉ line → (length (line ++ delim :: rest) ≤ sz)%nat →
  ReadString delim
    {| rbuf := []; rerr := None; rsize := sz;
       rd := (line ++ delim :: rest)%list :: s |}
  = Some ((string_of_bytes (line ++ [delim]), None),
          {| rbuf := rest; rerr := None; rsize := sz; rd := s |}).
Proof.
  intros Hline Hlen.
  assert (line ++ delim :: rest ≠ [])%list as Hne by (by destruct line).
  assert (0 < sz)%nat as Hsz.
  { destruct (line ++ delim :: rest)%list; [done | simpl in Hlen; lia]. }
  unfold ReadString. destruct (rounds_S
    {| rbuf := []; rerr := None; rsize := sz;
       rd := (line ++ delim :: rest)%list :: s |}) as [k ->].
  rewrite ReadString_loop_S. cbn [rbuf rerr rsize rd IndexByte length].
  replace (sz <=? 0)%nat with false by (symmetry; apply Nat.leb_gt; lia).
  rewrite fill_first_chunk by done.
  rewrite ReadString_loop_S. cbn [rbuf rerr rsize rd].
  rewrite IndexByte_found by done. cbn [app].
  replace (line ++ delim :: rest)%list with ((line ++ [delim]) ++ rest)%list
    by (by rewrite <- app_assoc).
  rewrite take_app_length', drop_app_length'
    by (rewrite length_app; simpl; lia).
  reflexivity.
Qed.

(** A last line without delimiter at the end of the stream. *)
Lemma ReadString_at_end (delim : Byte.byte) (l : bytes) (sz : nat) :
  delim ∉ l → (length l < sz)%nat →
  ReadString delim {| rbuf := l; rerr := None; rsize := sz; rd := [] |}
  = Some ((string_of_bytes l, Some io_EOF),
          {| rbuf := []; rerr := None; rsize := sz; rd := [] |}).
Proof.
  intros Hl Hlen. unfold ReadString.
  destruct (rounds_S {| rbuf := l; rerr := None; rsize := sz; rd := [] |})
    as [k ->].
  rewrite ReadString_loop_S. cbn [rbuf rerr rsize rd].
  rewrite IndexByte_absent by done.
  replace (sz <=? length l)%nat with false by (symmetry; apply Nat.leb_gt; lia).
  rewrite fill_at_end by done.
  rewrite ReadString_loop_S. cbn [rbuf rerr rsize rd].
  by rewrite IndexByte_absent.
Qed.
End line_reading.

(** ** The client *)

Lemma skipHeaders_S (fuel : nat) (reader : bufio.Reader) :
  client.skipHeaders (S fuel) reader =
  match bufio_lines.ReadString x0a reader with
  | None => None
  | Some ((line, Some err), reader) => Some (Some err, reader)
  | Some ((line, None), reader) =>
      if bool_decide (line = client.CRLF) then Some (None, reader)
      else client.skipHeaders fuel reader
  end.
Proof. reflexivity. Qed.

(** The header loop ends, whatever the stream delivers. *)
Lemma skipHeaders_total (fuel : nat) :
  ∀ reader : bufio.Reader,
    (0 < bufio.rsize reader)%nat → (remaining reader < fuel)%nat →
    ∃ e reader', client.skipHeaders fuel reader = Some (e, reader').
Proof.
  induction fuel as [|fuel IH]; intros reader Hsz Hfuel; [lia|].
  rewrite skipHeaders_S.
  destruct (ReadString_spec x0a reader Hsz)
    as (line & e & r' & -> & Hcont & Hs & Hne).
  destruct e as [e|]; [by eauto|].
  destruct (bool_decide (line = client.CRLF)); [by eauto|].
  apply IH; [by rewrite Hs|].
  rewrite !remaining_content in *. rewrite <- Hcont, length_app in Hfuel.
  rewrite length_bytes_of_string in Hfuel.
  assert (0 < len line)%nat.
  { specialize (Hne eq_refl). destruct line; [done | simpl; lia]. }
  lia.
Qed.

Lemma header_line_not_blank (h : bytes) :
  h ≠ [x0d] → string_of_bytes (h ++ [x0a]) ≠ client.CRLF.
Proof.
  intros Hh Heq. apply (f_equal bytes_of_string) in Heq.
  rewrite bytes_of_string_of_bytes in Heq.
  change (bytes_of_string client.CRLF) with ([x0d] ++ [x0a])%list in Heq.
  by apply app_inj_tail in Heq as [-> _].
Qed.

Lemma header_lines_length (hs : list bytes) :
  (length hs ≤ length (lines hs))%nat.
Proof.
  unfold lines. induction hs as [|h hs IH]; simpl; [done|].
  rewrite !length_app. simpl. lia.
Qed.

(** Header lines followed by the empty line, all in the buffer. *)
Lemma skipHeaders_blank (hs : list bytes) :
  ∀ (fuel : nat) (b : bufio.Reader) (rest : bytes),
    bufio.rbuf b = (lines hs ++ x0d :: x0a :: rest)%list →
    Forall header_line hs →
    (length hs < fuel)%nat →
    client.skipHeaders fuel b
    = Some (None, {| bufio.rbuf := rest; bufio.rerr := bufio.rerr b;
                     bufio.rsize := bufio.rsize b; bufio.rd := bufio.rd b |}).
Proof.
  induction hs as [|h hs IH]; intros fuel b rest Hbuf Hhs Hfuel;
    (destruct fuel as [|fuel]; [simpl in Hfuel; lia|]); rewrite skipHeaders_S.
  - rewrite (ReadString_buffered x0a [x0d] rest b); [| done |]; last first.
    { apply not_elem_of_cons. split; [done | apply not_elem_of_nil]. }
    by rewrite bool_decide_eq_true_2.
  - apply Forall_cons in Hhs as [[Hh Hblank] Hhs].
    rewrite (ReadString_buffered x0a h
               (lines hs ++ x0d :: x0a :: rest) b);
      [| | done]; last first.
    { rewrite Hbuf. unfold lines. simpl. by rewrite <- !app_assoc. }
    rewrite bool_decide_eq_false_2 by (by apply header_line_not_blank).
    rewrite (IH fuel _ rest); [done | done | done | simpl in Hfuel; lia].
Qed.

(** Header lines that stop short of the empty line at the end of the
    stream. *)
Lemma skipHeaders_truncated (hs : list bytes) :
  ∀ (fuel : nat) (tail : bytes) (sz : nat),
    Forall header_line hs → x0a ∉ tail →
    (length (lines hs ++ tail) < sz)%nat →
    (length hs < fuel)%nat →
    client.skipHeaders fuel
      {| bufio.rbuf := (lines hs ++ tail)%list;
         bufio.rerr := None; bufio.rsize := sz; bufio.rd := [] |}
    = Some (Some io_EOF,
            {| bufio.rbuf := []; bufio.rerr := None;
               bufio.rsize := sz; bufio.rd := [] |}).
Proof.
  induction hs as [|h hs IH]; intros fuel tail sz Hhs Htail Hlen Hfuel;
    (destruct fuel as [|fuel]; [simpl in Hfuel; lia|]); rewrite skipHeaders_S.
  - unfold lines in *. simpl in *. by rewrite ReadString_at_end.
  - apply Forall_cons in Hhs as [[Hh Hblank] Hhs].
    rewrite (ReadString_buffered x0a h
               (lines hs ++ tail));
      [| | done]; last first.
    { unfold lines. simpl. by rewrite <- !app_assoc. }
    rewrite bool_decide_eq_false_2 by (by apply header_line_not_blank).
    cbn [bufio.rerr bufio.rsize bufio.rd].
    apply IH; try done.
    + unfold lines in *. simpl in Hlen. rewrite !length_app in *.
      simpl in Hlen. lia.
    + simpl in Hfuel. lia.
Qed.

Lemma not_elem_of_forallb (c : Byte.byte) (h : bytes) :
  forallb (λ x, negb (Byte.eqb x c)) h = true → c ∉ h.
Proof.
  induction h as [|x h IH]; cbn [forallb]; intros H.
  - apply not_elem_of_nil.
  - apply andb_prop in H as [Hx Hh]. apply not_elem_of_cons. split.
    + intros ->. by rewrite Byte.byte_dec_lb in Hx.
    + by apply IH.
Qed.

Lemma header_line_forallb (h : bytes) :
  forallb (λ x, negb (Byte.eqb x x0a)) h = true →
  (length h =? 1)%nat && forallb (Byte.eqb x0d) h = false →
  header_line h.
Proof.
  intros H1 H2. split; [by apply not_elem_of_forallb|].
  intros ->. discriminate H2.
Qed.

Lemma main_unfold (uHost uRequestURI : string) (key : bytes)
    (conn_w : io.Sink) (conn_r : io.Source) :
  client.main uHost uRequestURI key conn_w conn_r =
  let sent := client.writeRequest conn_w uRequestURI uHost
                (base64.EncodeToString key) in
  match bufio_lines.ReadString x0a (bufio.NewReader conn_r) with
  | None => None
  | Some ((status, Some err), reader) =>
      Some (client.Fatal ["Error reading status line:"; error_Error err], sent)
  | Some ((status, None), reader) =>
      if negb (strings.Contains status "101") then
        Some (client.Fatal ["Did not receive 101 Switching Protocols"], sent)
      else
        match client.skipHeaders (S (remaining reader)) reader with
        | None => None
        | Some (Some err, reader) =>
            Some (client.Fatal ["Error reading headers:"; error_Error err], sent)
        | Some (None, reader) =>
            let '((message, err), reader) := readTextMessage reader in
            match err with
            | Some err =>
                Some (client.Fatal ["Error reading message:"; error_Error err],
                      sent)
            | None =>
                Some (client.Printed ("Received from server: " ++ message
                                      ++ String "010" EmptyString), sent)
            end
        end
  end.
Proof. reflexivity. Qed.

(** X15. The client's session always ends, however the response stream
    is cut into chunks and wherever it stops: with one of the four fatal
    errors (status line, missing 101, headers, message) or with the
    received message printed, a message of at most 127 bytes.  In every
    case the write side of the connection is what the eight writes of the
    request made of it. *)
Theorem client_main_outcomes (uHost uRequestURI : string) (key : bytes)
    (conn_w : io.Sink) (conn_r : io.Source) :
  ∃ o, client.main uHost uRequestURI key conn_w conn_r
       = Some (o, client.writeRequest conn_w uRequestURI uHost
                    (base64.EncodeToString key))
       ∧ ((∃ e, o = client.Fatal ["Error reading status line:"; error_Error e])
          ∨ o = client.Fatal ["Did not receive 101 Switching Protocols"]
          ∨ (∃ e, o = client.Fatal ["Error reading headers:"; error_Error e])
          ∨ (∃ e, o = client.Fatal ["Error reading message:"; error_Error e])
          ∨ (∃ m, o = client.Printed ("Received from server: " ++ m
                                      ++ String "010" EmptyString)
                  ∧ (len m ≤ 127)%nat)).
Proof.
  rewrite main_unfold. cbv zeta.
  destruct (ReadString_spec x0a (bufio.NewReader conn_r))
    as (status & e & r1 & -> & _ & Hs1 & _).
  { unfold bufio.NewReader, bufio.defaultBufSize. simpl. lia. }
  destruct e as [e|]; [by eauto 10|].
  destruct (negb (strings.Contains status "101")); [by eauto 10|].
  destruct (skipHeaders_total (S (remaining r1)) r1) as (e & r2 & ->);
    [rewrite Hs1; unfold bufio.NewReader, bufio.defaultBufSize; simpl; lia
    | lia |].
  destruct e as [e|]; [by eauto 10|].
  destruct (readTextMessage r2) as [[m err] r3] eqn:Hm.
  destruct (readTextMessage_bounds _ _ _ _ Hm) as (_ & _ & Hok & _).
  destruct err as [err|]; [by eauto 10|].
  destruct (Hok eq_refl) as [Hlen _]. eexists. split; [done|].
  do 4 right. by exists m.
Qed.



(** X17. End to end on the client side: a response made of a first line
    containing "101", any header lines, the empty line and then the frame
    of a message of at most 125 bytes, delivered in one piece of at most
    4096 bytes (the size of the reader's buffer), makes the client print
    that message.  The header lines are not inspected: the accept value
    may be absent or wrong. *)
Theorem client_receives (uHost uRequestURI : string) (key : bytes)
    (conn_w : io.Sink) (st : bytes) (hs : list bytes) (message : string)
    (rest : bytes) (more : io.Source) :
  x0a ∉ st →
  strings.Contains (string_of_bytes (st ++ [x0a])) "101" = true →
  Forall header_line hs →
  (len message ≤ 125)%nat →
  (length (st ++ x0a :: lines hs ++ x0d :: x0a :: text_frame message ++ rest)
   ≤ bufio.defaultBufSize)%nat →
  ∃ sent, client.main uHost uRequestURI key conn_w
            ((st ++ x0a :: lines hs ++ x0d :: x0a :: text_frame message ++ rest)%list
             :: more)
          = Some (client.Printed ("Received from server: " ++ message
                                  ++ String "010" EmptyString), sent).
Proof.
  intros Hst H101 Hhs Hmsg Hlen. rewrite main_unfold. cbv zeta.
  unfold bufio.NewReader. rewrite ReadString_first_chunk by done.
  rewrite H101. cbn [negb].
  rewrite (skipHeaders_blank hs _ _ (text_frame message ++ rest));
    [| done | done |]; last first.
  { unfold remaining. cbn [bufio.rbuf]. rewrite length_app.
    pose proof (header_lines_length hs). lia. }
  cbn [bufio.rerr bufio.rsize bufio.rd].
  destruct (length_byte_small (len message) Hmsg) as [Hbit Hn].
  rewrite (decode_buffered_frame _ x81 (byte_of_int (len message))
             (bytes_of_string message) rest); try done.
  - rewrite string_of_bytes_of_string. by eexists.
  - by rewrite Hn, length_bytes_of_string.
Qed.

Lemma client_receives_witness :
  ∃ sent, client.main "localhost:8080" "/ws" (repeat x00 16) io.bytes_Buffer
            [((bytes_of_string "HTTP/1.1 101 Switching Protocols" ++ [x0d])
              ++ x0a :: lines [(bytes_of_string "Upgrade: websocket" ++ [x0d])%list;
                               (bytes_of_string "Connection: Upgrade" ++ [x0d])%list]
              ++ x0d :: x0a :: text_frame "Test Message" ++ [])%list]
          = Some (client.Printed ("Received from server: " ++ "Test Message"
                                  ++ String "010" EmptyString), sent).
Proof.
  apply (client_receives "localhost:8080" "/ws" (repeat x00 16)
                io.bytes_Buffer
                (bytes_of_string "HTTP/1.1 101 Switching Protocols" ++ [x0d])
                [(bytes_of_string "Upgrade: websocket" ++ [x0d])%list;
                 (bytes_of_string "Connection: Upgrade" ++ [x0d])%list]
                "Test Message" [] []).
  - by apply not_elem_of_forallb.
  - reflexivity.
  - repeat (apply Forall_cons_2; [by apply header_line_forallb|]).
    apply Forall_nil_2.
  - vm_compute. lia.
  - vm_compute. lia.
Defined.

(** X18. A response that ends before the empty line is fatal: after a
    first line containing "101", header lines and a last line cut short,
    all delivered in one piece before the stream ends, the client stops
    with "Error reading headers:" and [io.EOF]. *)
Theorem client_headers_incomplete (uHost uRequestURI : string) (key : bytes)
    (conn_w : io.Sink) (st : bytes) (hs : list bytes) (tail : bytes) :
  x0a ∉ st →
  strings.Contains (string_of_bytes (st ++ [x0a])) "101" = true →
  Forall header_line hs → x0a ∉ tail →
  (length (st ++ x0a :: lines hs ++ tail) ≤ bufio.defaultBufSize)%nat →
  ∃ sent, client.main uHost uRequestURI key conn_w
            [(st ++ x0a :: lines hs ++ tail)%list]
          = Some (client.Fatal ["Error reading headers:"; "EOF"], sent).
Proof.
  intros Hst H101 Hhs Htail Hlen. rewrite main_unfold. cbv zeta.
  unfold bufio.NewReader. rewrite ReadString_first_chunk by done.
  rewrite H101. cbn [negb].
  rewrite skipHeaders_truncated; try done.
  - by eexists.
  - rewrite length_app in Hlen. simpl in Hlen. lia.
  - unfold remaining. cbn [bufio.rbuf]. rewrite length_app.
    pose proof (header_lines_length hs). lia.
Qed.

Lemma client_headers_incomplete_witness :
  ∃ sent, client.main "localhost:8080" "/ws" (repeat x00 16) io.bytes_Buffer
            [((bytes_of_string "HTTP/1.1 101 Switching Protocols" ++ [x0d])
              ++ x0a :: lines [(bytes_of_string "Upgrade: websocket" ++ [x0d])%list]
              ++ bytes_of_string "Connection: Upg")%list]
          = Some (client.Fatal ["Error reading headers:"; "EOF"], sent).
Proof.
  apply (client_headers_incomplete "localhost:8080" "/ws" (repeat x00 16)
                io.bytes_Buffer
                (bytes_of_string "HTTP/1.1 101 Switching Protocols" ++ [x0d])
                [(bytes_of_string "Upgrade: websocket" ++ [x0d])%list]
                (bytes_of_string "Connection: Upg")).
  - by apply not_elem_of_forallb.
  - reflexivity.
  - repeat (apply Forall_cons_2; [by apply header_line_forallb|]).
    apply Forall_nil_2.
  - by apply not_elem_of_forallb.
  - vm_compute. lia.
Defined.



(** ** The client's request and the two programs together *)

Lemma bytes_of_string_app (a b : string) :
  bytes_of_string (a ++ b) = (bytes_of_string a ++ bytes_of_string b)%list.
Proof.
  unfold bytes_of_string, list_byte_of_string.
  induction a as [|c a IH]; [done|].
  change (String c a ++ b) with (String c (a ++ b)).
  cbn [list_ascii_of_string map app]. by rewrite IH.
Qed.

Lemma Fprintf_healthy (conn : io.Sink) (text : string) :
  io.broken conn = None →
  client.Fprintf conn text
  = {| io.out := (io.out conn ++ bytes_of_string text)%list;
       io.broken := None |}.
Proof. intros H. unfold client.Fprintf, io.Write. by rewrite H. Qed.

Lemma Fprintf_broken (conn : io.Sink) (text : string) (e : error) :
  io.broken conn = Some e → client.Fprintf conn text = conn.
Proof. intros H. unfold client.Fprintf, io.Write. by rewrite H. Qed.

Lemma encode_length (src : list N) :
  String.length (base64.encode src) = (4 * ((length src + 2) / 3))%nat.
Proof.
  assert (∀ n (l : list N), (length l < n)%nat →
            String.length (base64.encode l) = (4 * ((length l + 2) / 3))%nat)
    as H; [| by apply (H (S (length src))); lia].
  clear src. induction n as [|n IH]; intros l Hl; [lia|].
  destruct l as [|a [|b [|c rest]]]; try reflexivity.
  cbn [base64.encode String.length length]. rewrite IH by (simpl in Hl; lia).
  replace (S (S (S (length rest))) + 2)%nat
    with (1 * 3 + (length rest + 2))%nat by lia.
  rewrite Nat.div_add_l by done. lia.
Qed.

Lemma HeaderGet_HeaderSet (h : http.Header) (k v k' : string) :
  http.HeaderGet (http.HeaderSet h k v) k'
  = if bool_decide (http.CanonicalMIMEHeaderKey k = http.CanonicalMIMEHeaderKey k')
    then v else http.HeaderGet h k'.
Proof.
  unfold http.HeaderGet, http.HeaderSet. case_bool_decide as Hk.
  - by rewrite Hk, lookup_insert_eq.
  - by rewrite lookup_insert_ne.
Qed.

(** X20. The upgrade request is written without looking at the results
    of the writes.  On a connection that accepts writes the eight lines
    arrive in order, ending with the empty line; on a connection that
    rejects writes nothing is written and the client goes on to read the
    response all the same. *)
Theorem client_writeRequest (conn : io.Sink) (uRequestURI uHost key : string) :
  (io.broken conn = None →
   client.writeRequest conn uRequestURI uHost key
   = {| io.out :=
          (io.out conn
           ++ bytes_of_string
                ("GET " ++ uRequestURI ++ " HTTP/1.1" ++ client.CRLF
                 ++ "Host: " ++ uHost ++ client.CRLF
                 ++ "Upgrade: websocket" ++ client.CRLF
                 ++ "Connection: Upgrade" ++ client.CRLF
                 ++ "Sec-WebSocket-Key: " ++ key ++ client.CRLF
                 ++ "Sec-WebSocket-Version: 13" ++ client.CRLF
                 ++ "Origin: http://localhost:8080" ++ client.CRLF
                 ++ client.CRLF))%list;
        io.broken := None |})
  ∧ (∀ e, io.broken conn = Some e →
          client.writeRequest conn uRequestURI uHost key = conn)
  ∧ (∀ (k : bytes) (conn_r : io.Source),
       ∃ o, client.main uHost uRequestURI k conn conn_r
            = Some (o, client.writeRequest conn uRequestURI uHost
                         (base64.EncodeToString k))
            ∧ ∀ conn' uHost' uRequestURI' k',
                ∃ sent, client.main uHost' uRequestURI' k' conn' conn_r
                        = Some (o, sent)).
Proof.
  split; [| split].
  - intros H. unfold client.writeRequest. cbv zeta.
    rewrite (Fprintf_healthy conn) by done.
    repeat (rewrite (Fprintf_healthy (io.Build_Sink _ None)) by done).
    cbn [io.out]. f_equal.
    by rewrite !bytes_of_string_app, <- !app_assoc.
  - intros e H. unfold client.writeRequest. cbv zeta.
    by rewrite !(Fprintf_broken conn _ e).
  - intros k conn_r. rewrite main_unfold. cbv zeta.
    destruct (ReadString_spec x0a (bufio.NewReader conn_r))
      as (status & e & r1 & Hrs & _ & Hs1 & _).
    { unfold bufio.NewReader, bufio.defaultBufSize. simpl. lia. }
    assert (∃ o, ∀ conn' uHost' uRequestURI' k',
               client.main uHost' uRequestURI' k' conn' conn_r
               = Some (o, client.writeRequest conn' uRequestURI' uHost'
                            (base64.EncodeToString k'))) as [o Ho].
    { destruct e as [e|].
      { eexists. intros. rewrite main_unfold. cbv zeta. by rewrite Hrs. }
      destruct (negb (strings.Contains status "101")) eqn:H101.
      { eexists. intros. rewrite main_unfold. cbv zeta.
        by rewrite Hrs, H101. }
      destruct (skipHeaders_total (S (remaining r1)) r1) as (e & r2 & Hsk);
        [rewrite Hs1; unfold bufio.NewReader, bufio.defaultBufSize; simpl; lia
        | lia |].
      destruct e as [e|].
      { eexists. intros. rewrite main_unfold. cbv zeta.
        by rewrite Hrs, H101, Hsk. }
      destruct (readTextMessage r2) as [[m err] r3] eqn:Hm.
      destruct err as [err|].
      - eexists. intros. rewrite main_unfold. cbv zeta.
        by rewrite Hrs, H101, Hsk, Hm.
      - eexists. intros. rewrite main_unfold. cbv zeta.
        by rewrite Hrs, H101, Hsk, Hm. }
    exists o. rewrite <- main_unfold. split; [apply Ho|].
    intros. eexists. apply Ho.
Qed.

(** X21. The key the client sends is accepted by the server: for the 16
    bytes the client draws, the header value has 24 characters, and a
    request carrying the header fields the client writes passes the
    three checks of the handler. *)
Theorem client_request_passes_checks (uHost : string) (key : bytes) :
  length key = 16%nat →
  len (base64.EncodeToString key) = 24%nat
  ∧ passes_checks
      (NewRequest [("Host", uHost); ("Upgrade", "websocket");
                   ("Connection", "Upgrade");
                   ("Sec-WebSocket-Key", base64.EncodeToString key);
                   ("Sec-WebSocket-Version", "13");
                   ("Origin", "http://localhost:8080")]).
Proof.
  intros Hkey.
  assert (len (base64.EncodeToString key) = 24%nat) as Hlen.
  { unfold len, base64.EncodeToString.
    by rewrite encode_length, length_map, Hkey. }
  split; [done|].
  unfold passes_checks, NewRequest. cbn [fold_left http.ReqHeader fst snd].
  rewrite !HeaderGet_HeaderSet.
  repeat split; try reflexivity.
  change (base64.EncodeToString key ≠ EmptyString).
  intros H. by rewrite H in Hlen.
Qed.

Lemma client_request_passes_checks_witness :
  len (base64.EncodeToString (repeat x00 16)) = 24%nat
  ∧ passes_checks
      (NewRequest [("Host", "localhost:8080"); ("Upgrade", "websocket");
                   ("Connection", "Upgrade");
                   ("Sec-WebSocket-Key", base64.EncodeToString (repeat x00 16));
                   ("Sec-WebSocket-Version", "13");
                   ("Origin", "http://localhost:8080")]).
Proof.
  apply (client_request_passes_checks "localhost:8080" (repeat x00 16)).
  reflexivity.
Defined.

(** X22. The two programs together: when the handler has upgraded a
    request on a fresh connection that accepts writes, the bytes it wrote
    to the connection, coming after a response head with "101" in its
    first line and delivered with it in one piece of at most 4096 bytes
    (the size of the client's read buffer), make the client print
    "Received from server: Hello World". *)
Theorem server_message_reaches_client (r : http.Request) (c : io.Sink)
    (uHost uRequestURI : string) (key : bytes) (conn_w : io.Sink)
    (st : bytes) (hs : list bytes) :
  passes_checks r → c = io.bytes_Buffer →
  x0a ∉ st →
  strings.Contains (string_of_bytes (st ++ [x0a])) "101" = true →
  Forall header_line hs →
  (length (st ++ x0a :: lines hs) + 15 ≤ bufio.defaultBufSize)%nat →
  ∃ c' sent,
    conn (serve (http.Hijackable c) r) = Some {| sink := c'; closed := true |}
    ∧ client.main uHost uRequestURI key conn_w
        [(st ++ x0a :: lines hs ++ x0d :: x0a :: io.out c')%list]
      = Some (client.Printed
                ("Received from server: Hello World" ++ String "010" EmptyString),
              sent).
Proof.
  intros (HO & HU & HK) -> Hst H101 Hhs Hlen.
  rewrite (wsHandler_upgrade _ r _ HO HU eq_refl HK). cbv zeta.
  rewrite sendTextMessage_NewWriter by (done || (vm_compute; lia)).
  cbn [conn bufio.wr bufio.NewWriter io.out io.bytes_Buffer app].
  exists {| io.out := text_frame "Hello World"; io.broken := None |}.
  eexists. split; [done|]. cbn [io.out].
  rewrite main_unfold. cbv zeta.
  unfold bufio.NewReader. rewrite ReadString_first_chunk; [| done |]; last first.
  { rewrite length_app in *. cbn [length] in *. rewrite length_app.
    cbn [length]. change (length (text_frame "Hello World")) with 13%nat. lia. }
  rewrite H101. cbn [negb].
  rewrite (skipHeaders_blank hs _ _ (text_frame "Hello World"));
    [| done | done |]; last first.
  { unfold remaining. cbn [bufio.rbuf]. rewrite length_app.
    pose proof (header_lines_length hs). lia. }
  cbn [bufio.rerr bufio.rsize bufio.rd].
  rewrite <- (app_nil_r (text_frame "Hello World")).
  rewrite (decode_buffered_frame _ x81 x0b (bytes_of_string "Hello World") []);
    done.
Qed.

Lemma server_message_reaches_client_witness :
  ∃ c' sent,
    conn (serve (http.Hijackable io.bytes_Buffer)
            (NewRequest [("Origin", "http://localhost:8080");
                         ("Upgrade", "websocket");
                         ("Sec-WebSocket-Key", "dGhlIHNhbXBsZSBub25jZQ==")]))
    = Some {| sink := c'; closed := true |}
    ∧ client.main "localhost:8080" "/ws" (repeat x00 16) io.bytes_Buffer
        [((bytes_of_string "HTTP/1.1 101 Switching Protocols" ++ [x0d])
          ++ x0a :: lines [(bytes_of_string "Upgrade: websocket" ++ [x0d])%list]
          ++ x0d :: x0a :: io.out c')%list]
      = Some (client.Printed
                ("Received from server: Hello World" ++ String "010" EmptyString),
              sent).
Proof.
  apply (server_message_reaches_client
           (NewRequest [("Origin", "http://localhost:8080");
                        ("Upgrade", "websocket");
                        ("Sec-WebSocket-Key", "dGhlIHNhbXBsZSBub25jZQ==")])
           io.bytes_Buffer "localhost:8080" "/ws" (repeat x00 16)
           io.bytes_Buffer
           (bytes_of_string "HTTP/1.1 101 Switching Protocols" ++ [x0d])
           [(bytes_of_string "Upgrade: websocket" ++ [x0d])%list]).
  - by vm_compute.
  - reflexivity.
  - by apply not_elem_of_forallb.
  - reflexivity.
  - repeat (apply Forall_cons_2; [by apply header_line_forallb|]).
    apply Forall_nil_2.
  - vm_compute. lia.
Defined.
